(** * AsyncEventEmitter: a shallow embedding and its verified properties

    The development follows the single source class [AsyncEventEmitter]
    (an extension of node's [EventEmitter] with four asynchronous emission
    strategies, one-shot listeners and an optional [p-limit] gate).

    - JavaScript values and function identities are an inductive type;
      numbers are IEEE binary64 ([PrimFloat.float]).
    - A promise is described by the instant at which it settles and by how
      it settles; [Promise.all] is the state machine of ECMAScript, fed with
      the settlements in the order in which the event loop observes them.
    - Methods that mutate the instance are state transformers over a
      [Realm]; methods that may throw return a [completion]. *)

From Stdlib Require Import PrimFloat SpecFloat FloatOps.
From stdpp Require Import gmap strings list sorting.

Set Default Proof Using "Type*".

(** ** JavaScript values *)

Module JS.
#[local] Set Warnings "-register-all".

(** A function value. Two function values are the same reference exactly
    when they are equal here: [Fn id] is a function of the embedding
    program, [OnceFn k event listener] is the closure [onceListener]
    created by the [k]-th allocation, which captured [event] and
    [listener] (its mutable capture [fired] lives in the realm). *)
Inductive fn : Set :=
| Fn (id : nat)
| OnceFn (k : nat) (event : string) (listener : fn).

Inductive value : Type :=
| VUndefined
| VNull
| VBoolean (b : bool)
| VNumber (x : float)
| VString (s : string)
| VArray (xs : list value)
| VFunction (f : fn)
| VError (name message : string).

Inductive type_tag : Set :=
| TUndefined | TObject | TBoolean | TNumber | TString | TFunction.

Definition typeof (v : value) : type_tag :=
  match v with
  | VUndefined => TUndefined
  | VNull => TObject
  | VBoolean _ => TBoolean
  | VNumber _ => TNumber
  | VString _ => TString
  | VArray _ => TObject
  | VFunction _ => TFunction
  | VError _ _ => TObject
  end.

(** [x >= 1] on numbers: false on NaN, true on [+Infinity]. *)
Definition ge_one (x : float) : bool := PrimFloat.leb 1%float x.

(** [Number.isInteger]: a finite number with no fractional part. *)
Definition Number_isInteger (x : float) : bool :=
  match Prim2SF x with
  | S754_zero _ => true
  | S754_finite _ m e => (0 <=? e)%Z || (Z.pos m mod 2 ^ (- e) =? 0)%Z
  | S754_infinity _ | S754_nan => false
  end.

(** The result of running a piece of synchronous code. *)
Inductive completion (A : Type) : Type :=
| Normal (a : A)
| Throw (e : value).
Global Arguments Normal {A} a.
Global Arguments Throw {A} e.

Definition TypeError (message : string) : value := VError "TypeError" message.

End JS.
Export JS.

Global Instance fn_eq_dec : EqDecision fn.
Proof. solve_decision. Defined.

(** Function values are countable: a closure is the stack of its
    once-wrappers around a program function. *)
Fixpoint fn_layers (f : fn) : list (nat * string) * nat :=
  match f with
  | Fn id => ([], id)
  | OnceFn k event g => let '(ws, id) := fn_layers g in ((k, event) :: ws, id)
  end.

Definition fn_of_layers (c : list (nat * string) * nat) : fn :=
  foldr (fun w g => OnceFn w.1 w.2 g) (Fn c.2) c.1.

Lemma fn_of_layers_layers f : fn_of_layers (fn_layers f) = f.
Proof.
  induction f as [id|k event g IH]; [done|].
  simpl. destruct (fn_layers g) as [ws id]. unfold fn_of_layers in *.
  simpl in *. by rewrite IH.
Qed.

Global Instance fn_countable : Countable fn :=
  inj_countable' fn_layers fn_of_layers fn_of_layers_layers.

(** ** Logical time and promises *)

(** Instants of the event loop. An instant does not order the events that
    happen at it; where their order matters the host gives it
    ([settle_order] below). *)
Definition time : Set := nat.

Inductive settlement (A : Type) : Type :=
| Fulfilled (a : A)
| Rejected (reason : value).
Global Arguments Fulfilled {A} a.
Global Arguments Rejected {A} reason.

(** A promise either settles at instant [at_] or stays pending for ever. *)
Inductive Promise (A : Type) : Type :=
| Settles (at_ : time) (s : settlement A)
| Forever.
Global Arguments Settles {A} at_ s.
Global Arguments Forever {A}.

(** What a listener hands back when it returns normally: a plain value or
    a promise of one. *)
Inductive returned : Type :=
| RValue (v : value)
| RPromise (p : Promise value).

(** [Promise.resolve(x)] evaluated at [now]: a promise is returned as it
    is, a plain value gives a promise fulfilled on the spot. *)
Definition Promise_resolve (now : time) (x : returned) : Promise value :=
  match x with
  | RValue v => Settles now (Fulfilled v)
  | RPromise p => p
  end.

Definition Promise_resolved {A} (now : time) (a : A) : Promise A :=
  Settles now (Fulfilled a).

Definition Promise_reject {A} (now : time) (e : value) : Promise A :=
  Settles now (Rejected e).

(** The instant at which a reaction registered at [now] on a promise that
    settles at [t] runs: a promise that was already settled is observed
    when the reaction is registered. *)
Definition observed (now t : time) : time := Nat.max now t.

(** A promise resolved at [now] with the promise [p]: it settles as [p]
    does, once that is observed. *)
Definition follow {A} (now : time) (p : Promise A) : Promise A :=
  match p with
  | Settles t s => Settles (observed now t) s
  | Forever => Forever
  end.

(** ** The host: [p-limit], the program's state, the order of events *)

(** The gate library [p-limit] is not part of the source; the embedding is
    parametric in it. [pLimit x] is the call [pLimit(x)], which may throw.
    A gate object is known by its state: handed a thunk at [now], it moves
    to a next state and decides at which instant the thunk is started
    ([None]: it never is). [World] is the state of the embedding program
    that listeners read and write.

    An instant does not say in which order the promises that settle at it
    do so; the reactions of promises that were pending when they were
    subscribed to run in that order. The embedding is parametric in it:
    of the promises a call of [Promise.all] finds pending, which settle at
    the instant [t], the one at position [i] settles before the one at
    position [j] when [settle_order t i < settle_order t j]. *)
Class Host : Type := {
  Limit : Type;
  pLimit : float -> completion Limit;
  limit_enter : Limit -> time -> Limit * option time;
  World : Type;
  settle_order : time -> nat -> nat;
}.

(** A gate never starts a thunk before it was handed over. *)
Class CausalGate {host : Host} : Prop :=
  limit_enter_causal :
    forall (g g' : Limit) (now start : time),
      limit_enter g now = (g', Some start) -> now <= start.

(** Some gate, handed a thunk at some instant, never starts it. *)
Definition gate_refuses {host : Host} : Prop :=
  exists (g : Limit) (now : time), (limit_enter g now).2 = None.

(** The fields of an [AsyncEventEmitter] instance. [_events] is the
    registry inherited from node's [EventEmitter]: the listeners of each
    event in registration order. [limiter] is [None] when the field is
    [undefined]. *)
Record AsyncEventEmitter {host : Host} : Type := mkEmitter {
  _events : gmap string (list fn);
  onceMap : gmap fn fn;
  limiter : option Limit;
}.

(** One invocation made by [_executeListener]: which listener, with which
    arguments, at which instant it was started, and the promise of it. *)
Record invocation : Type := mkInvocation {
  inv_listener : fn;
  inv_args : list value;
  inv_start : time;
  inv_promise : Promise value;
}.

(** The realm an instance lives in: the instance, the [fired] flags of the
    once-closures that have run, the allocation counter, the program's own
    state, and the record of the invocations made so far (a ghost field:
    no code reads it). *)
Record Realm {host : Host} : Type := mkRealm {
  this : AsyncEventEmitter;
  fired : gset nat;
  allocated : nat;
  world : World;
  calls : list invocation;
}.

(** The functions of the embedding program: what [Fn id] does when it is
    called with [args] at [now]. It may change the realm in any way (call
    back into the instance included) and returns or throws. *)
Class Listeners {host : Host} : Type :=
  user_call : nat -> list value -> time -> Realm -> Realm * completion returned.

Section Emitter.
Context {host : Host}.

Definition set_this (e : AsyncEventEmitter) (σ : Realm) : Realm :=
  mkRealm _ e (fired σ) (allocated σ) (world σ) (calls σ).

Definition set_events (ev : gmap string (list fn)) (e : AsyncEventEmitter)
    : AsyncEventEmitter :=
  mkEmitter _ ev (onceMap e) (limiter e).

Definition set_onceMap (m : gmap fn fn) (e : AsyncEventEmitter)
    : AsyncEventEmitter :=
  mkEmitter _ (_events e) m (limiter e).

Definition set_limiter (l : option Limit) (e : AsyncEventEmitter)
    : AsyncEventEmitter :=
  mkEmitter _ (_events e) (onceMap e) l.

Definition set_calls (log : list invocation) (σ : Realm) : Realm :=
  mkRealm _ (this σ) (fired σ) (allocated σ) (world σ) log.

Definition set_fired (k : nat) (σ : Realm) : Realm :=
  mkRealm _ (this σ) ({[k]} ∪ fired σ) (allocated σ) (world σ) (calls σ).

(** Allocation of a fresh object identity. *)
Definition alloc (σ : Realm) : nat * Realm :=
  (allocated σ,
   mkRealm _ (this σ) (fired σ) (S (allocated σ)) (world σ) (calls σ)).

(** *** node's [EventEmitter]

    The registry is the base class [EventEmitter] of [node:events], which
    is outside the source. Its meta events ([newListener],
    [removeListener]) and its warning on many listeners are left out. *)

(** Modelled from the spec: [listeners(event)] of the Listener Registry
    lists the listeners of [event] in registration order, as a copy. *)
Definition listeners (event : string) (e : AsyncEventEmitter) : list fn :=
  default [] (_events e !! event).

(** Modelled from the spec: [on(event, listener)] of the Listener
    Registry adds [listener] after the listeners [event] already has. *)
Definition on (event : string) (listener : fn) (e : AsyncEventEmitter)
    : AsyncEventEmitter :=
  set_events (<[event := listeners event e ++ [listener]]> (_events e)) e.

(** Removes the first occurrence of [x]. *)
Fixpoint remove_first (x : fn) (l : list fn) : list fn :=
  match l with
  | [] => []
  | y :: l' => if decide (y = x) then l' else y :: remove_first x l'
  end.

(** Removes the last occurrence of [x]: node scans the array from its end. *)
Definition remove_last (x : fn) (l : list fn) : list fn :=
  reverse (remove_first x (reverse l)).

(** Modelled from the spec: [removeListener(event, listener)] of the
    Listener Registry (the [super.removeListener] of the source) removes
    by identity, and of several occurrences the one added last; an event
    left without listeners is dropped. *)
Definition EventEmitter_removeListener (event : string) (listener : fn)
    (e : AsyncEventEmitter) : AsyncEventEmitter :=
  match _events e !! event with
  | None => e
  | Some list =>
      match remove_last listener list with
      | [] => set_events (delete event (_events e)) e
      | list' => set_events (<[event := list']> (_events e)) e
      end
  end.

(** *** [once], [removeListener], [subscribe] *)

(** [removeListener(event, listener)]: a listener that has an entry in
    [onceMap] is replaced by the closure the entry holds, and the entry is
    deleted; the registry then removes what is left in [listener]. *)
Definition removeListener (event : string) (listener : fn)
    (e : AsyncEventEmitter) : AsyncEventEmitter :=
  match onceMap e !! listener with
  | Some t =>
      EventEmitter_removeListener event t (set_onceMap (delete listener (onceMap e)) e)
  | None => EventEmitter_removeListener event listener e
  end.

(** [once(event, listener)]: throws on a listener that is not a function;
    otherwise creates the closure [onceListener], registers it and records
    it under [listener] in [onceMap]. *)
Definition once (event : string) (listener : value) (σ : Realm) : completion Realm :=
  match listener with
  | VFunction f =>
      let '(k, σ) := alloc σ in
      let onceListener := OnceFn k event f in
      let e := on event onceListener (this σ) in
      let e := set_onceMap (<[f := onceListener]> (onceMap e)) e in
      Normal (set_this e σ)
  | _ => Throw (TypeError "listener must be a function")
  end.

(** [subscribe(event, listener, once)]: the handle it returns is the
    closure [unsubscribe], a call of [removeListener(event, listener)]. *)
Definition unsubscribe (event : string) (listener : fn) (σ : Realm) : Realm :=
  set_this (removeListener event listener (this σ)) σ.

Definition subscribe (event : string) (listener : fn) (once_ : bool) (σ : Realm)
    : completion (Realm * (Realm -> Realm)) :=
  if once_ then
    match once event (VFunction listener) σ with
    | Normal σ' => Normal (σ', unsubscribe event listener)
    | Throw err => Throw err
    end
  else Normal (set_this (on event listener (this σ)) σ, unsubscribe event listener).

(** *** [setConcurrency] and the constructor *)

(** The guard [typeof concurrency === "number" && concurrency >= 1]. *)
Definition concurrency_guard (concurrency : value) : option float :=
  match concurrency with
  | VNumber x => if ge_one x then Some x else None
  | _ => None
  end.

(** [setConcurrency(concurrency)]: under the guard, [this.limiter] is
    assigned the gate [pLimit(concurrency)] returns, and an exception of
    [pLimit] leaves the method before the assignment; the method returns
    [this]. *)
Definition setConcurrency (concurrency : value) (σ : Realm) : completion Realm :=
  match concurrency_guard concurrency with
  | Some x =>
      match pLimit x with
      | Normal g => Normal (set_this (set_limiter (Some g) (this σ)) σ)
      | Throw err => Throw err
      end
  | None => Normal σ
  end.

(** [new AsyncEventEmitter(concurrency)] in a realm: the fields get their
    initial values, then the guarded call of [setConcurrency]. *)
Definition new (concurrency : value) (σ : Realm) : completion Realm :=
  let σ := set_this (mkEmitter _ ∅ ∅ None) σ in
  match concurrency_guard concurrency with
  | Some _ => setConcurrency concurrency σ
  | None => Normal σ
  end.

End Emitter.

(** ** Running listeners *)

(** Modelled from the spec: [isArray] of [@unwanted/common] (outside the
    source) recognises the values that are sequences. *)
Definition isArray (v : value) : bool :=
  match v with
  | VArray _ => true
  | _ => false
  end.

(** The elements of an array, as [...prevArgs] spreads them. *)
Definition spread (v : value) : list value :=
  match v with
  | VArray xs => xs
  | _ => []
  end.

(** What a call that completed at [at_] makes of the promise handed out
    for it: [Promise.resolve] of what was returned, [Promise.reject] of
    what was thrown. *)
Definition settle_call (at_ : time) (c : completion returned) : Promise value :=
  match c with
  | Normal x => Promise_resolve at_ x
  | Throw err => Promise_reject at_ err
  end.

(** ** [Promise.all] *)

(** The reaction that [Promise.all] registered on the promise at [index],
    run at [r_at] with the settlement of that promise; [r_rank] places it
    among the reactions that run at the same instant. *)
Record reaction : Type := mkReaction {
  r_at : time;
  r_rank : nat;
  r_index : nat;
  r_settlement : settlement value;
}.

(** The place among the reactions of one instant. A promise that was
    settled before the call of [Promise.all] at [now] has its reaction
    queued by the loop that subscribes to the promises, ahead of the
    reactions of promises that settle later; the reactions of the others
    are queued as the promises settle. *)
Definition rank_of {host : Host} (now t : time) (index : nat) : nat :=
  if decide (t < now) then 0 else settle_order t index.

(** The reaction on the promise at [index], which settles at [t] with
    [s]. *)
Definition reaction_of {host : Host} (now : time) (index : nat) (t : time)
    (s : settlement value) : reaction :=
  mkReaction (observed now t) (rank_of now t index) index s.

(** The reactions that will run: one for each promise that settles, at the
    instant the settlement is observed. *)
Fixpoint reactions_from {host : Host} (now : time) (index : nat)
    (ps : list (Promise value)) : list reaction :=
  match ps with
  | [] => []
  | Settles t s :: ps' =>
      reaction_of now index t s :: reactions_from now (S index) ps'
  | Forever :: ps' => reactions_from now (S index) ps'
  end.

(** The order of the job queue: by instant; at one instant by the place
    among the reactions of that instant; and in the order in which the
    reactions were registered where these places are the same, as they
    are for the promises that were settled before the call. *)
Definition reaction_le (a b : reaction) : Prop :=
  r_at a < r_at b
  \/ (r_at a = r_at b
      /\ (r_rank a < r_rank b \/ (r_rank a = r_rank b /\ r_index a <= r_index b))).

Global Instance reaction_le_dec : RelDecision reaction_le.
Proof. intros a b. unfold reaction_le. apply _. Defined.

(** The order is total. *)
Global Instance reaction_le_trans : Transitive reaction_le.
Proof. intros a b c. unfold reaction_le. lia. Qed.

Global Instance reaction_le_total : Total reaction_le.
Proof. intros a b. unfold reaction_le. lia. Qed.

(** The state of one call of [Promise.all]: the array of values, the count
    of elements still awaited, and the promise it returned. *)
Record all_state : Type := mkAll {
  all_values : list value;
  all_remaining : nat;
  all_result : Promise (list value);
}.

(** Resolving or rejecting a promise that is already settled does
    nothing. *)
Definition settle_once {A} (current new : Promise A) : Promise A :=
  match current with
  | Forever => new
  | Settles _ _ => current
  end.

(** The loop over the iterable: a slot and a count for each promise. *)
Definition all_subscribe (st : all_state) (p : Promise value) : all_state :=
  mkAll (all_values st ++ [VUndefined]) (S (all_remaining st)) (all_result st).

(** The count goes down by one; at zero the result is resolved with the
    array of values. *)
Definition all_countdown (at_ : time) (st : all_state) : all_state :=
  let remaining := pred (all_remaining st) in
  mkAll (all_values st) remaining
    (if decide (remaining = 0)
     then settle_once (all_result st) (Settles at_ (Fulfilled (all_values st)))
     else all_result st).

(** One reaction: a fulfilment stores its value in its slot and counts
    down, a rejection rejects the result. *)
Definition all_react (st : all_state) (r : reaction) : all_state :=
  match r_settlement r with
  | Fulfilled v =>
      all_countdown (r_at r)
        (mkAll (<[r_index r := v]> (all_values st)) (all_remaining st) (all_result st))
  | Rejected e =>
      mkAll (all_values st) (all_remaining st)
        (settle_once (all_result st) (Settles (r_at r) (Rejected e)))
  end.

(** The job queue of a call of [Promise.all]: the reactions in the order
    in which they run. *)
Definition job_queue {host : Host} (now : time) (ps : list (Promise value))
    : list reaction :=
  merge_sort reaction_le (reactions_from now 0 ps).

(** [Promise.all(ps)] called at [now]: the loop over the promises, the
    count taken back by one at its end, then the reactions as the job
    queue runs them. *)
Definition Promise_all {host : Host} (now : time) (ps : list (Promise value))
    : Promise (list value) :=
  let st := fold_left all_subscribe ps (mkAll [] 1 Forever) in
  let st := all_countdown now st in
  all_result (fold_left all_react (job_queue now ps) st).

Section Emission.
Context {host : Host} {program : Listeners}.

(** Stateful code: a function of the realm. *)
Definition M (A : Type) : Type := Realm -> Realm * A.

(** [promise.then(onFulfilled)], registered at [now]: the callback runs
    when the fulfilment is observed and the promise [then] returns follows
    the promise the callback returns; a rejection passes through and the
    callback never runs. *)
Definition then_ {A B} (now : time) (promise : Promise A)
    (onFulfilled : A -> time -> M (Promise B)) : M (Promise B) :=
  fun σ =>
    match promise with
    | Settles t (Fulfilled a) =>
        let '(σ, p) := onFulfilled a (observed now t) σ in
        (σ, follow (observed now t) p)
    | Settles t (Rejected e) => (σ, Settles (observed now t) (Rejected e))
    | Forever => (σ, Forever)
    end.

(** Calling a function value. The closure [onceListener] first removes
    itself, then runs [listener] unless [fired] is set. The ghost record
    of invocations is out of the program's reach. *)
Fixpoint call (f : fn) (args : list value) (now : time) (σ : Realm)
    : Realm * completion returned :=
  match f with
  | Fn id =>
      let '(σ', c) := user_call id args now σ in
      (set_calls (calls σ) σ', c)
  | OnceFn k event listener =>
      let σ := set_this (removeListener event f (this σ)) σ in
      if decide (k ∈ fired σ) then (σ, Normal (RValue VUndefined))
      else call listener args now (set_fired k σ)
  end.

(** [_executeListener(listener, args)] at [now]. Without a gate the
    listener is called on the spot. With a gate the call is a thunk handed
    to the gate, which runs it when it admits it; the promise of the gate
    follows the thunk. A synchronous throw of the listener becomes a
    rejected promise on both paths. *)
Definition _executeListener (listener : fn) (args : list value) (now : time)
    : M (Promise value) :=
  fun σ =>
    match limiter (this σ) with
    | Some g =>
        let '(g', decision) := limit_enter g now in
        let σ := set_this (set_limiter (Some g') (this σ)) σ in
        match decision with
        | Some start =>
            let '(σ, c) := call listener args start σ in
            let p := follow start (settle_call start c) in
            (set_calls (calls σ ++ [mkInvocation listener args start p]) σ, p)
        | None => (σ, Forever)
        end
    | None =>
        let '(σ, c) := call listener args now σ in
        let p := settle_call now c in
        (set_calls (calls σ ++ [mkInvocation listener args now p]) σ, p)
    end.

(** [emitParallel(event, ...args)] *)
Definition emitParallel (event : string) (args : list value) (now : time)
    : M (Promise (list value)) :=
  fun σ =>
    let '(σ, promises) :=
      fold_left
        (fun '(σ, promises) listener =>
           let '(σ, p) := _executeListener listener args now σ in
           (σ, promises ++ [p]))
        (listeners event (this σ)) (σ, []) in
    (σ, Promise_all now promises).

(** [emitSerial(event, ...args)] *)
Definition emitSerial (event : string) (args : list value) (now : time)
    : M (Promise (list value)) :=
  fun σ =>
    fold_left
      (fun '(σ, promise) listener =>
         then_ now promise
           (fun values t σ =>
              let '(σ, p) := _executeListener listener args t σ in
              then_ t p
                (fun value t' σ => (σ, Promise_resolved t' (values ++ [value]))) σ)
           σ)
      (listeners event (this σ)) (σ, Promise_resolved now []).

(** [_emitReduceRun(event, args, inverse)] *)
Definition _emitReduceRun (event : string) (args : list value) (inverse : bool)
    (now : time) : M (Promise value) :=
  fun σ =>
    let listeners :=
      if inverse then reverse (listeners event (this σ))
      else listeners event (this σ) in
    fold_left
      (fun '(σ, promise) listener =>
         then_ now promise
           (fun prevArgs t =>
              let currentArgs :=
                if isArray prevArgs then spread prevArgs else [prevArgs] in
              _executeListener listener currentArgs t)
           σ)
      listeners (σ, Promise_resolved now (VArray args)).

Definition emitReduce (event : string) (args : list value) (now : time)
    : M (Promise value) :=
  _emitReduceRun event args false now.

Definition emitReduceRight (event : string) (args : list value) (now : time)
    : M (Promise value) :=
  _emitReduceRun event args true now.

End Emission.

(** * What is observed of a call

    The vocabulary of the properties: how a promise came out, what the
    record of invocations of a call looks like, and which rejection
    [Promise.all] observes first. *)

Section Observations.
Context {host : Host} {program : Listeners}.

(** How a promise came out. *)
Definition fulfilled_with {A} (p : Promise A) (a : A) : Prop :=
  exists t, p = Settles t (Fulfilled a).


(** The argument list made of the previous result in a reduction. *)
Definition next_args (prev : value) : list value :=
  if isArray prev then spread prev else [prev].


(** The instance with the gate [g] in [this.limiter]. *)
Definition gated (g : Limit) (σ : Realm) : Realm :=
  set_this (set_limiter (Some g) (this σ)) σ.

(** The instance as the field initialisers of the class leave it. *)
Definition initial (σ : Realm) : Realm :=
  set_this (mkEmitter _ ∅ ∅ None) σ.

(** A run of [setConcurrency] calls; a call that throws leaves the
    instance to the next call as it was. *)
Definition setConcurrency_calls (ns : list value) (σ : Realm) : Realm :=
  fold_left
    (fun σ n => match setConcurrency n σ with Normal σ' => σ' | Throw _ => σ end)
    ns σ.

(** The order in which [_emitReduceRun] goes through the listeners. *)
Definition reduce_order (inverse : bool) (ls : list fn) : list fn :=
  if inverse then reverse ls else ls.

(** [R] holds of every start the gate can decide, and of a start on the
    spot. *)
Definition starts_within (R : time -> time -> Prop) : Prop :=
  (forall t, R t t)
  /\ forall (g g' : Limit) now start,
       limit_enter g now = (g', Some start) -> R now start.

End Observations.

Section Chain.
Context {host : Host} {program : Listeners}.
Context {S : Type} (args_of : S -> list value) (push : S -> value -> S).

(** The step both [reduce] callbacks of the source share: on the state
    [s] the chain has reached, run the listener on [args_of s] and go on
    with [push s value]. *)
Definition chain_step (now : time) : Realm * Promise S -> fn -> Realm * Promise S :=
  fun '(σ, promise) listener =>
    then_ now promise
      (fun s t σ =>
         let '(σ, p) := _executeListener listener (args_of s) t σ in
         then_ t p (fun value t' σ => (σ, Promise_resolved t' (push s value))) σ)
      σ.

(** What an observer sees of a chain that is at state [s] at instant [T]
    with the listeners [ls] ahead: the invocations it makes and the
    promise it ends with. [R now start] relates the instant a listener is
    handed to [_executeListener] and the instant it is started. *)
Inductive chain_run (R : time -> time -> Prop)
    : time -> S -> list fn -> list invocation -> Promise S -> Prop :=
| run_done T s :
    chain_run R T s [] [] (Settles T (Fulfilled s))
| run_blocked T s l ls :
    gate_refuses ->
    chain_run R T s (l :: ls) [] Forever
| run_hang T s l ls start :
    R T start ->
    chain_run R T s (l :: ls) [mkInvocation l (args_of s) start Forever] Forever
| run_fail T s l ls start t e :
    R T start ->
    chain_run R T s (l :: ls)
      [mkInvocation l (args_of s) start (Settles t (Rejected e))]
      (Settles (observed T t) (Rejected e))
| run_next T s l ls start t v recs p :
    R T start ->
    chain_run R (observed T t) (push s v) ls recs p ->
    chain_run R T s (l :: ls)
      (mkInvocation l (args_of s) start (Settles t (Fulfilled v)) :: recs) p.

End Chain.

Section Started.
Context {host : Host}.

(** What an observer sees of the loop of [emitParallel] over the
    listeners [ls]: for each listener in turn a promise, and an
    invocation with the [args] of the call unless the gate never starts
    that listener. *)
Inductive started (R : time -> time -> Prop) (now : time) (args : list value)
    : list fn -> list invocation -> list (Promise value) -> Prop :=
| started_nil :
    started R now args [] [] []
| started_never l ls recs ps :
    gate_refuses ->
    started R now args ls recs ps ->
    started R now args (l :: ls) recs (Forever :: ps)
| started_cons l ls start p recs ps :
    R now start ->
    started R now args ls recs ps ->
    started R now args (l :: ls) (mkInvocation l args start p :: recs) (p :: ps).

End Started.

Section Turns.
Context {host : Host} {program : Listeners}.

(** The realm after the gate [g] of the instance was handed a thunk at
    [now]. *)
Definition gate_handed (σ : Realm) (g : Limit) (now : time) : Realm :=
  set_this (set_limiter (Some (limit_enter g now).1) (this σ)) σ.

(** The invocation [i] is a call of its listener: the function value
    [inv_listener i] is called in the realm [σ] with the arguments
    [inv_args i] at the instant [inv_start i]; [inv_promise i] is the
    promise made of what this call returned or threw (on an instance with
    a gate the promise of the gate, which follows it); and [σ'] is the
    realm the call left, with [i] added to the record. *)
Definition invoked (σ : Realm) (i : invocation) (σ' : Realm) : Prop :=
  let r := call (inv_listener i) (inv_args i) (inv_start i) σ in
  let p := settle_call (inv_start i) r.2 in
  inv_promise i = match limiter (this σ) with
                  | Some _ => follow (inv_start i) p
                  | None => p
                  end
  /\ σ' = set_calls (calls r.1 ++ [i]) r.1.

(** The invocations [recs] are the calls made from the realm [σ] to the
    realm [σ'], one after the other, each in the realm the one before it
    left. On an instance with a gate a call is made for a thunk the gate
    was handed and decided to start, at the instant it decided, and a
    thunk the gate never starts leaves no call; nothing else happens to
    the realm. *)
Inductive calls_in_turn : Realm -> list invocation -> Realm -> Prop :=
| turn_done σ :
    calls_in_turn σ [] σ
| turn_refused σ g now recs σ' :
    limiter (this σ) = Some g ->
    (limit_enter g now).2 = None ->
    calls_in_turn (gate_handed σ g now) recs σ' ->
    calls_in_turn σ recs σ'
| turn_started σ g now i σ1 recs σ' :
    limiter (this σ) = Some g ->
    (limit_enter g now).2 = Some (inv_start i) ->
    invoked (gate_handed σ g now) i σ1 ->
    calls_in_turn σ1 recs σ' ->
    calls_in_turn σ (i :: recs) σ'
| turn_called σ i σ1 recs σ' :
    limiter (this σ) = None ->
    invoked σ i σ1 ->
    calls_in_turn σ1 recs σ' ->
    calls_in_turn σ (i :: recs) σ'.

End Turns.

(** What a reaction stores in the array of values. *)
Definition store (vals : list value) (r : reaction) : list value :=
  match r_settlement r with
  | Fulfilled v => <[r_index r := v]> vals
  | Rejected _ => vals
  end.

(** The reaction is run for a promise that was fulfilled. *)
Definition is_fulfilment (r : reaction) : Prop :=
  exists v, r_settlement r = Fulfilled v.

Global Instance is_fulfilment_dec r : Decision (is_fulfilment r).
Proof.
  unfold is_fulfilment. destruct (r_settlement r) as [v|e].
  - left. by exists v.
  - right. by intros [v Hv].
Defined.

(** The rejection of the promise at [index], which happened at [t], is
    the one a call of [Promise.all] at [now] observes first: the reaction
    of every other rejection runs later. *)
Definition observed_first {host : Host} (now : time) (ps : list (Promise value))
    (index : nat) (t : time) : Prop :=
  forall j t' e',
    ps !! j = Some (Settles t' (Rejected e')) ->
    reaction_le (reaction_of now index t (Rejected e'))
      (reaction_of now j t' (Rejected e')).



(** ** A concrete host and program

    The listeners of the repository's test suite, and a host for them:
    [pLimit] checks its argument as [p-limit] documents it (an integer
    from 1 up, or [Infinity]), and a gate, known by its capacity and the
    number of thunks it was handed, starts every thunk at once (no
    scenario below reaches a capacity). The promises of the suite's
    listeners that settle at one instant do so in the order in which the
    listeners were called: each settles as its listener returns or by a
    timer, and timers of the same delay fire in the order in which they
    were set. *)

Module Suite.

Record gate : Type := mkGate {
  capacity : float;
  handed : nat;
}.

Definition suite_pLimit (x : float) : completion gate :=
  if (Number_isInteger x || PrimFloat.eqb x infinity) && PrimFloat.ltb 0 x
  then Normal (mkGate x 0)
  else Throw (TypeError "Expected `concurrency` to be a number from 1 and up").

Definition suite_enter (g : gate) (now : time) : gate * option time :=
  (mkGate (capacity g) (S (handed g)), Some now).

#[export] Instance suite_host : Host := {|
  Limit := gate;
  pLimit := suite_pLimit;
  limit_enter := suite_enter;
  World := unit;
  settle_order := fun _ index => index;
|}.

Definition Error (message : string) : value := VError "Error" message.

Definition first_arg (args : list value) : value :=
  default VUndefined (args !! 0).

(** [(keys, value) => Promise.resolve([keys.concat(i), value * value])] *)
Definition square (i : float) (args : list value) (now : time) : returned :=
  match args with
  | VArray keys :: VNumber x :: _ =>
      RPromise (Settles now
        (Fulfilled (VArray [VArray (keys ++ [VNumber i]); VNumber (x * x)])))
  | _ => RPromise (Settles now (Rejected (TypeError "keys.concat is not a function")))
  end.

(** The program's functions, by identity:
    - 0: [(action) => action]
    - 1: [(action) => new Promise((resolve) => setTimeout(() => resolve(action)))]
    - 2: [() => new Promise(() => { throw new Error("beep") })]
    - 3: [() => Promise.reject(new Error("boop"))]
    - 4: [() => { throw new Error("boop") }]
    - 5: a listener that resolves to ["slow"] after 100 instants
    - 6, 7: listeners that return a promise made earlier, rejected at
      instant 5 with ["late"] and at instant 3 with ["early"]
    - 8: a listener whose promise is rejected with ["slow"] after 100
      instants
    - 10, 11, 12: the three [square] listeners
    - 20: [() => 1], 21: [(value) => [value]] *)
Definition suite_call (id : nat) (args : list value) (now : time) (σ : Realm)
    : Realm * completion returned :=
  match id with
  | 0 => (σ, Normal (RValue (first_arg args)))
  | 1 => (σ, Normal (RPromise (Settles (S now) (Fulfilled (first_arg args)))))
  | 2 => (σ, Normal (RPromise (Settles now (Rejected (Error "beep")))))
  | 3 => (σ, Normal (RPromise (Settles now (Rejected (Error "boop")))))
  | 4 => (σ, Throw (Error "boop"))
  | 5 => (σ, Normal (RPromise (Settles (now + 100) (Fulfilled (VString "slow")))))
  | 6 => (σ, Normal (RPromise (Settles 5 (Rejected (Error "late")))))
  | 7 => (σ, Normal (RPromise (Settles 3 (Rejected (Error "early")))))
  | 8 => (σ, Normal (RPromise (Settles (now + 100) (Rejected (Error "slow")))))
  | 10 => (σ, Normal (square 1 args now))
  | 11 => (σ, Normal (square 2 args now))
  | 12 => (σ, Normal (square 3 args now))
  | 20 => (σ, Normal (RValue (VNumber 1)))
  | 21 => (σ, Normal (RValue (VArray [first_arg args])))
  | _ => (σ, Normal (RValue VUndefined))
  end.

#[export] Instance suite_listeners : Listeners := suite_call.

(** The realm before [new AsyncEventEmitter()] and after it. *)
Definition blank : Realm := mkRealm _ (mkEmitter _ ∅ ∅ None) ∅ 0 tt [].

Definition emitter : Realm :=
  match new VUndefined blank with
  | Normal σ => σ
  | Throw _ => blank
  end.

(** [emitter.on(event, Fn id)] for each [id], in order. *)
Definition on_all (event : string) (ids : list nat) (σ : Realm) : Realm :=
  fold_left (fun σ id => set_this (on event (Fn id) (this σ)) σ) ids σ.

(** The realm a method that returned normally leaves behind. *)
Definition returns (c : completion Realm) : Realm :=
  match c with
  | Normal σ => σ
  | Throw _ => blank
  end.

End Suite.

Import Suite.

Global Instance suite_causal : CausalGate.
Proof.
  intros g g' now start. simpl. unfold suite_enter.
  intros; simplify_eq; lia.
Qed.

(** The instance after [once("foo", (action) => action)]. *)
Definition once_foo : Realm :=
  returns (once "foo" (VFunction (Fn 0)) emitter).

(** * Further vocabulary

    What the properties of the remaining methods speak of: programs whose
    functions stay away from the instance, the shape of the entries of
    [onceMap], what every step of an emission preserves, and the instant
    at which a call settles. *)

(** A function of the program, as opposed to a closure of [once]. *)
Definition is_plain (f : fn) : Prop :=
  match f with
  | Fn _ => True
  | OnceFn _ _ _ => False
  end.

Global Instance is_plain_dec f : Decision (is_plain f).
Proof. destruct f; simpl; apply _. Defined.

(** The number of closures of [once] around the function of the program. *)
Fixpoint depth (f : fn) : nat :=
  match f with
  | Fn _ => 0
  | OnceFn _ _ g => S (depth g)
  end.

Section Programs.
Context {host : Host} {program : Listeners}.

(** The functions of the program do not call back into the instance:
    they return it as they found it. *)
Class Detached : Prop :=
  user_call_this :
    forall id args now (σ : Realm), this (user_call id args now σ).1 = this σ.

(** The functions of the program cannot reach the variable [fired] of a
    closure of [once]: a flag that is set stays set. *)
Class KeepsFired : Prop :=
  user_call_fired :
    forall id args now (σ : Realm), fired σ ⊆ fired (user_call id args now σ).1.

(** The entries of [onceMap] are as [once] makes them: under a listener,
    a closure of [once] around that listener. *)
Definition onceMap_wf (e : AsyncEventEmitter) : Prop :=
  forall f w, onceMap e !! f = Some w -> exists k event, w = OnceFn k event f.

(** A relation between the realm before and the realm after that every
    step of a call of a function value keeps: the program's own functions,
    the self-removal of a closure of [once] and the setting of its flag,
    and the protection of the ghost record. *)
Record call_invariant (P : Realm -> Realm -> Prop) : Prop := {
  inv_refl : forall σ, P σ σ;
  inv_trans : forall σ1 σ2 σ3, P σ1 σ2 -> P σ2 σ3 -> P σ1 σ3;
  inv_user : forall id args now σ, P σ (user_call id args now σ).1;
  inv_calls : forall log σ, P σ (set_calls log σ);
  inv_fired : forall k σ, P σ (set_fired k σ);
  inv_remove :
    forall k event f σ,
      P σ (set_this (removeListener event (OnceFn k event f) (this σ)) σ);
}.

(** ... and that the hand-over of a thunk to the gate keeps as well. *)
Record emission_invariant (P : Realm -> Realm -> Prop) : Prop := {
  inv_call : call_invariant P;
  inv_gate :
    forall g g' σ,
      limiter (this σ) = Some g ->
      P σ (set_this (set_limiter (Some g') (this σ)) σ);
}.

(** The instance of [σ'] has nothing that the instance of [σ] had not:
    no listener, no entry of the mapping, and a gate only if there was
    one. *)
Definition nothing_added (σ σ' : Realm) : Prop :=
  (forall event, (listeners event (this σ')) `sublist_of` (listeners event (this σ)))
  /\ onceMap (this σ') ⊆ onceMap (this σ)
  /\ (is_Some (limiter (this σ')) <-> is_Some (limiter (this σ))).

(** The functions of the program that were registered still are, each as
    often as it was and in the same order. *)
Definition plain_kept (σ σ' : Realm) : Prop :=
  onceMap_wf (this σ) ->
  onceMap_wf (this σ')
  /\ forall event,
       filter is_plain (listeners event (this σ'))
       = filter is_plain (listeners event (this σ)).

(** The gate after it was handed one thunk at [now] for each of [ls]. *)
Definition handed_over (now : time) (ls : list fn) (g : Limit) : Limit :=
  fold_left (fun g _ => (limit_enter g now).1) ls g.

(** The listeners of [ls] the gate starts, when it is handed a thunk for
    each of them in turn at [now], each with the instant at which the
    gate starts it. *)
Fixpoint admitted (now : time) (ls : list fn) (g : Limit) : list (fn * time) :=
  match ls with
  | [] => []
  | l :: ls' =>
      let rest := admitted now ls' (limit_enter g now).1 in
      match (limit_enter g now).2 with
      | Some start => (l, start) :: rest
      | None => rest
      end
  end.

End Programs.

(** [T] is the instant at which the last of [ps] settles, and the instant
    [now] when they all had settled by then: every promise of [ps] has
    settled by [T], and [T] is [now] or the instant one of them settled. *)
Definition settled_last {A} (now : time) (ps : list (Promise A)) (T : time) : Prop :=
  now <= T
  /\ Forall (fun p => exists t s, p = Settles t s /\ t <= T) ps
  /\ (T = now \/ exists s, Settles T s ∈ ps).

(** ** The predicates of [predicates.ts]

    [instanceof] walks the prototype chain of its left operand and looks
    for the [prototype] object of the class: what is modelled of an
    object is the object its chain starts with. The chain of
    [AsyncEventEmitter.prototype] is what [class AsyncEventEmitter extends
    EventEmitter] makes it; prototypes are not reassigned and no class
    defines [Symbol.hasInstance]. *)

Inductive prototype : Type :=
| ObjectPrototype
| EventEmitterPrototype
| AsyncEventEmitterPrototype
| ClassPrototype (id : nat) (extends : prototype).

Global Instance prototype_eq_dec : EqDecision prototype.
Proof. solve_decision. Defined.

(** The prototype chain that starts with [p]. *)
Fixpoint prototype_chain (p : prototype) : list prototype :=
  p :: match p with
       | ObjectPrototype => []
       | EventEmitterPrototype => [ObjectPrototype]
       | AsyncEventEmitterPrototype => [EventEmitterPrototype; ObjectPrototype]
       | ClassPrototype _ parent => prototype_chain parent
       end.

(** [obj instanceof C], for [obj] known by the object its chain starts
    with ([None]: a value that is not an object, or an object without
    prototype). *)
Definition instanceof (obj : option prototype) (C : prototype) : bool :=
  match obj with
  | Some p => bool_decide (C ∈ prototype_chain p)
  | None => false
  end.

Definition isEventEmitter (obj : option prototype) : bool :=
  instanceof obj EventEmitterPrototype.

Definition isAsyncEventEmitter (obj : option prototype) : bool :=
  instanceof obj AsyncEventEmitterPrototype.

(** * Verified properties *)

(** ** The registry and the once-mapping *)

Section Registry.
Context {host : Host}.

Lemma onceMap_EventEmitter_removeListener event l (e : AsyncEventEmitter) :
  onceMap (EventEmitter_removeListener event l e) = onceMap e.
Proof.
  unfold EventEmitter_removeListener.
  destruct (_events e !! event) as [list|]; [|done].
  by destruct (remove_last l list).
Qed.

Lemma limiter_EventEmitter_removeListener event l (e : AsyncEventEmitter) :
  limiter (EventEmitter_removeListener event l e) = limiter e.
Proof.
  unfold EventEmitter_removeListener.
  destruct (_events e !! event) as [list|]; [|done].
  by destruct (remove_last l list).
Qed.

Lemma listeners_EventEmitter_removeListener event l (e : AsyncEventEmitter) :
  listeners event (EventEmitter_removeListener event l e)
  = remove_last l (listeners event e).
Proof.
  unfold EventEmitter_removeListener, listeners.
  destruct (_events e !! event) as [list|] eqn:Hev; simpl.
  - destruct (remove_last l list) as [|y list'] eqn:Hrm; simpl.
    + by rewrite lookup_delete_eq.
    + by rewrite lookup_insert_eq.
  - by rewrite Hev.
Qed.

Lemma listeners_EventEmitter_removeListener_ne event event' l (e : AsyncEventEmitter) :
  event ≠ event' ->
  listeners event' (EventEmitter_removeListener event l e) = listeners event' e.
Proof.
  intros Hne. unfold EventEmitter_removeListener, listeners.
  destruct (_events e !! event) as [list|] eqn:Hev; [|done].
  destruct (remove_last l list) as [|y list'] eqn:Hrm; simpl.
  - by rewrite lookup_delete_ne.
  - by rewrite lookup_insert_ne.
Qed.

(** An explicit [removeListener] of a listener that has an entry deletes
    the entry and takes the closure of the entry, not the listener, out of
    the registry. *)
Lemma removeListener_entry event f w (e : AsyncEventEmitter) :
  onceMap e !! f = Some w ->
  onceMap (removeListener event f e) !! f = None
  /\ listeners event (removeListener event f e) = remove_last w (listeners event e).
Proof.
  intros Hf. unfold removeListener. rewrite Hf. split.
  - rewrite onceMap_EventEmitter_removeListener. simpl. apply lookup_delete_eq.
  - by rewrite listeners_EventEmitter_removeListener.
Qed.

(** A [removeListener] of a function that has no entry of its own leaves
    the mapping as it is: this is the call the closure [onceListener]
    makes with itself when it fires. *)
Lemma removeListener_no_entry event w (e : AsyncEventEmitter) :
  onceMap e !! w = None ->
  onceMap (removeListener event w e) = onceMap e
  /\ listeners event (removeListener event w e) = remove_last w (listeners event e).
Proof.
  intros Hw. unfold removeListener. rewrite Hw. split.
  - apply onceMap_EventEmitter_removeListener.
  - apply listeners_EventEmitter_removeListener.
Qed.

Lemma limiter_removeListener event l (e : AsyncEventEmitter) :
  limiter (removeListener event l e) = limiter e.
Proof.
  unfold removeListener. destruct (onceMap e !! l);
    by rewrite limiter_EventEmitter_removeListener.
Qed.

(** What [once] leaves behind: the closure at the end of the event's
    listeners and an entry for the listener. *)
Lemma once_registers event f (σ : Realm) :
  exists σ', once event (VFunction f) σ = Normal σ'
    /\ listeners event (this σ') = listeners event (this σ) ++ [OnceFn (allocated σ) event f]
    /\ onceMap (this σ') !! f = Some (OnceFn (allocated σ) event f)
    /\ allocated σ' = S (allocated σ).
Proof.
  eexists. split; [reflexivity|]. simpl. split_and!.
  - unfold listeners at 1. simpl. by rewrite lookup_insert_eq.
  - by rewrite lookup_insert_eq.
  - done.
Qed.

End Registry.

(** ** The concurrency gate *)

Section Gate.
Context {host : Host}.

(** C2 (as amended). [setConcurrency(n)] hands [n] to [pLimit] exactly
    when [n] is a number with [n >= 1], integer or not: the gate [pLimit]
    returns is installed in place of whatever was there, and an exception
    of [pLimit] propagates. For every other argument (not a number, NaN, a
    number below 1) the instance is left as it is and returned, without an
    error. The constructor treats its argument by the same rule, and every
    integer from 1 up passes the guard. *)
Theorem setConcurrency_number_from_one (n : value) (σ : Realm) :
  (forall x g, n = VNumber x -> ge_one x = true -> pLimit x = Normal g ->
     setConcurrency n σ = Normal (gated g σ))
  /\ (forall x err, n = VNumber x -> ge_one x = true -> pLimit x = Throw err ->
     setConcurrency n σ = Throw err)
  /\ ((forall x, n = VNumber x -> ge_one x = false) ->
     setConcurrency n σ = Normal σ)
  /\ (typeof n <> TNumber -> setConcurrency n σ = Normal σ)
  /\ (forall σ', setConcurrency n σ = Normal σ' ->
        limiter (this σ') <> limiter (this σ) ->
        exists x, n = VNumber x /\ ge_one x = true)
  /\ new n σ = setConcurrency n (initial σ)
  /\ (forall x, n = VNumber x -> Number_isInteger x && ge_one x = true ->
     concurrency_guard n = Some x).
Proof.
  unfold new, setConcurrency, gated, initial. split_and!.
  - intros x g -> Hx Hg. simpl. by rewrite Hx, Hg.
  - intros x err -> Hx Hg. simpl. by rewrite Hx, Hg.
  - intros Hn. destruct n as [| |b|x|s|xs|f|name msg]; simpl; try done.
    by rewrite (Hn x eq_refl).
  - intros Hn. by destruct n as [| |b|x|s|xs|f|name msg].
  - intros σ' Hset Hne.
    destruct n as [| |b|x|s|xs|f|name msg]; simpl in Hset; simplify_eq.
    exists x. split; [done|].
    destruct (ge_one x); [done|]. by simplify_eq.
  - by destruct (concurrency_guard n).
  - intros x -> [_ Hx]%andb_true_iff. simpl. by rewrite Hx.
Qed.

(** C2 (counterexample). [1.5] is not an integer from 1 up, and on no host
    is [setConcurrency(1.5)] a silent no-op for an instance without a
    gate: the guard lets it through to [pLimit], so either [pLimit] throws
    or the gate it returns is installed. *)
Lemma setConcurrency_fraction_not_ignored :
  Number_isInteger 0x1.8p0%float && ge_one 0x1.8p0%float = false
  /\ ~ exists (H : Host) (σ : Realm),
        limiter (this σ) = None
        /\ setConcurrency (VNumber 0x1.8p0%float) σ = Normal σ.
Proof.
  split; [by vm_compute|].
  intros (H' & σ & Hnone & Hset). unfold setConcurrency in Hset.
  assert (concurrency_guard (VNumber 0x1.8p0%float) = Some 0x1.8p0%float) as Hguard
    by (by vm_compute).
  rewrite Hguard in Hset.
  destruct (pLimit 0x1.8p0%float) as [g|err]; [|done].
  injection Hset as Hσ. rewrite <- Hσ in Hnone. done.
Qed.

(** C9. Once [this.limiter] holds a gate, a call of [setConcurrency]
    either puts the gate [pLimit] made for a number from 1 up in its place
    or keeps the field as it is, so after any run of such calls the field
    still holds a gate. *)
Theorem setConcurrency_never_removes_gate (σ : Realm) :
  is_Some (limiter (this σ)) ->
  (forall n,
     match setConcurrency n σ with
     | Normal σ' =>
         limiter (this σ') = limiter (this σ)
         \/ exists x g, n = VNumber x /\ ge_one x = true /\ pLimit x = Normal g
                        /\ limiter (this σ') = Some g
     | Throw _ => True
     end)
  /\ forall ns, is_Some (limiter (this (setConcurrency_calls ns σ))).
Proof.
  intros Hgate. split.
  - intros n. unfold setConcurrency.
    destruct n as [| |b|x|s|xs|f|name msg]; simpl; auto.
    destruct (ge_one x) eqn:Hx; auto.
    destruct (pLimit x) as [g|err] eqn:Hg; [|done].
    right. by exists x, g.
  - intros ns. revert σ Hgate. unfold setConcurrency_calls.
    induction ns as [|n ns IH]; intros σ Hgate; [done|].
    simpl. apply IH. unfold setConcurrency.
    destruct (concurrency_guard n) as [x|]; [|done].
    destruct (pLimit x) as [g|err]; [|done].
    by eexists.
Qed.

End Gate.

(** ** One listener at a time: [emitSerial] and the reductions *)

Section Execution.
Context {host : Host} {program : Listeners}.

Lemma starts_within_True : starts_within (fun _ _ => True).
Proof. by split. Qed.

Lemma starts_within_le {causal : CausalGate} : starts_within le.
Proof. split; [done|]. intros g g' now start. apply limit_enter_causal. Qed.

(** The program cannot touch the record of invocations. *)
Lemma call_calls f args now (σ : Realm) :
  calls (call f args now σ).1 = calls σ.
Proof.
  revert σ. induction f as [id|k event g IH]; intros σ; simpl.
  - by destruct (user_call id args now σ).
  - case_decide; [done|]. by rewrite IH.
Qed.

(** One call of [_executeListener]: either the gate never starts the
    listener, which leaves a promise that stays pending and no
    invocation, or the listener is invoked once, with the arguments
    given, and the invocation is recorded with the promise returned. *)
Lemma _executeListener_calls R l args now (σ : Realm) :
  starts_within R ->
  gate_refuses
  /\ (_executeListener l args now σ).2 = Forever
  /\ calls (_executeListener l args now σ).1 = calls σ
  \/ exists start,
       R now start
       /\ calls (_executeListener l args now σ).1
          = calls σ ++ [mkInvocation l args start (_executeListener l args now σ).2].
Proof.
  intros [Hrefl Hgate]. unfold _executeListener.
  destruct (limiter (this σ)) as [g|].
  - destruct (limit_enter g now) as [g' [start|]] eqn:Hg.
    2:{ left. split; [|done]. exists g, now. by rewrite Hg. }
    right. exists start. split; [by eapply Hgate|].
    pose proof (call_calls l args start
      (set_this (set_limiter (Some g') (this σ)) σ)) as Hc.
    destruct (call l args start _) as [σ1 c]. simpl in *. by rewrite Hc.
  - right. exists now. split; [done|].
    pose proof (call_calls l args now σ) as Hc.
    destruct (call l args now σ) as [σ1 c]. simpl in *. by rewrite Hc.
Qed.

(** A listener that throws is not different from one that returns a
    rejected promise: [_executeListener] hands out a promise rejected
    with what was thrown, observed when the listener was started. *)
Lemma _executeListener_throw l args now (σ : Realm) :
  match limiter (this σ) with
  | None =>
      forall e, (call l args now σ).2 = Throw e ->
        (_executeListener l args now σ).2 = Settles now (Rejected e)
  | Some g =>
      forall start e,
        (limit_enter g now).2 = Some start ->
        (call l args start
           (set_this (set_limiter (Some (limit_enter g now).1) (this σ)) σ)).2
        = Throw e ->
        (_executeListener l args now σ).2 = Settles start (Rejected e)
  end.
Proof.
  unfold _executeListener. destruct (limiter (this σ)) as [g|].
  - intros start e. destruct (limit_enter g now) as [g' decision]. simpl.
    intros -> Hc. destruct (call l args start _) as [σ1 c]. simpl in *. subst c.
    simpl. unfold observed. f_equal. lia.
  - intros e Hc. destruct (call l args now σ) as [σ1 c]. simpl in *. by subst c.
Qed.

Lemma observed_ge now t : now <= t -> observed now t = t.
Proof. unfold observed. lia. Qed.

Lemma observed_idem now t : observed (observed now t) (observed now t) = observed now t.
Proof. unfold observed. lia. Qed.

Lemma observed_absorb now t : observed now (observed now t) = observed now t.
Proof. unfold observed. lia. Qed.

Lemma now_le_observed now t : now <= observed now t.
Proof. unfold observed. lia. Qed.

Lemma settled_le_observed now t : t <= observed now t.
Proof. unfold observed. lia. Qed.

Section Fold.
Context {S : Type} (args_of : S -> list value) (push : S -> value -> S).

(** A chain that is rejected, or pending for ever, stays so: no later
    listener is run and the realm is not touched. *)
Lemma chain_fold_rejected now T e ls (σ : Realm) :
  now <= T ->
  fold_left (chain_step args_of push now) ls (σ, Settles T (Rejected e))
  = (σ, Settles T (Rejected e)).
Proof.
  intros HT. induction ls as [|l ls IH]; [done|].
  simpl. by rewrite observed_ge.
Qed.

Lemma chain_fold_forever now ls (σ : Realm) :
  fold_left (chain_step args_of push now) ls (σ, Forever) = (σ, Forever).
Proof. induction ls as [|l ls IH]; [done|]. by simpl. Qed.

(** The chain of [then] callbacks the source builds with [reduce] runs
    as [chain_run] describes. *)
Lemma chain_fold_run R now ls :
  starts_within R ->
  forall T s (σ : Realm),
    now <= T ->
    let r := fold_left (chain_step args_of push now) ls (σ, Settles T (Fulfilled s)) in
    exists recs,
      calls r.1 = calls σ ++ recs
      /\ chain_run args_of push R T s ls recs r.2.
Proof.
  intros HR. induction ls as [|l ls IH]; intros T s σ HT; simpl.
  - exists []. split; [by rewrite app_nil_r|constructor].
  - rewrite (observed_ge now T HT).
    destruct (_executeListener_calls R l (args_of s) T σ HR) as [(HB & Hp & Hc)|(start & Hstart & Hc)];
      destruct (_executeListener l (args_of s) T σ) as [σ1 p]; simpl in *.
    + subst p. simpl. rewrite chain_fold_forever. simpl.
      exists []. split; [by rewrite app_nil_r|by constructor].
    + destruct p as [t [v|e]|]; simpl.
      * rewrite observed_idem, observed_absorb.
        destruct (IH (observed T t) (push s v) σ1) as (recs & Hrecs & Hrun).
        { pose proof (now_le_observed T t). lia. }
        eexists (_ :: recs). split.
        -- rewrite Hrecs, Hc. by rewrite <- app_assoc.
        -- by constructor.
      * rewrite observed_absorb. rewrite chain_fold_rejected.
        2:{ pose proof (now_le_observed T t). lia. }
        simpl. eexists [_]. split; [done|]. by constructor.
      * rewrite chain_fold_forever. simpl.
        eexists [_]. split; [done|]. by constructor.
Qed.

End Fold.

(** [emitSerial] is the chain that keeps the call's arguments and
    collects the values. *)
Lemma emitSerial_chain event args now (σ : Realm) :
  emitSerial event args now σ
  = fold_left (chain_step (fun _ => args) (fun values value => values ++ [value]) now)
      (listeners event (this σ)) (σ, Settles now (Fulfilled [])).
Proof. reflexivity. Qed.

(** [_emitReduceRun] is the chain that hands each result on. *)
Lemma _emitReduceRun_chain event args inverse now (σ : Realm) :
  _emitReduceRun event args inverse now σ
  = fold_left (chain_step next_args (fun _ value => value) now)
      (reduce_order inverse (listeners event (this σ)))
      (σ, Settles now (Fulfilled (VArray args))).
Proof.
  unfold _emitReduceRun, reduce_order, Promise_resolved.
  generalize (σ, Settles now (Fulfilled (VArray args))).
  generalize (if inverse then reverse (listeners event (this σ))
              else listeners event (this σ)).
  intros ls. induction ls as [|l ls IH]; intros acc; [done|].
  simpl. rewrite IH. f_equal.
  destruct acc as [σ0 [T [s|e]|]]; simpl; try done.
  unfold next_args.
  destruct (_executeListener l _ (observed now T) σ0) as [σ1 [t [v|e]|]]; simpl;
    try done.
  - by rewrite observed_idem, observed_absorb.
  - by rewrite observed_absorb.
Qed.

End Execution.

(** *** The record of invocations is a record of calls *)

Section InTurn.
Context {host : Host} {program : Listeners}.

#[local] Abbreviation in_turns σ σ' := (exists recs, calls_in_turn σ recs σ').

Lemma calls_in_turn_app (σ σ1 σ2 : Realm) recs recs' :
  calls_in_turn σ recs σ1 ->
  calls_in_turn σ1 recs' σ2 ->
  calls_in_turn σ (recs ++ recs') σ2.
Proof.
  induction 1 as [σ|σ g now recs σ1 Hg Hd Hrun IH
                 |σ g now i σ0 recs σ1 Hg Hd Hi Hrun IH
                 |σ i σ0 recs σ1 Hg Hi Hrun IH]; intros Hrest; simpl.
  - done.
  - eapply turn_refused; [done|done|by apply IH].
  - eapply turn_started; [done|done|done|by apply IH].
  - eapply turn_called; [done|done|by apply IH].
Qed.

(** The calls are what the record gained. *)
Lemma calls_in_turn_calls (σ σ' : Realm) recs :
  calls_in_turn σ recs σ' -> calls σ' = calls σ ++ recs.
Proof.
  induction 1 as [σ|σ g now recs σ1 Hg Hd Hrun IH
                 |σ g now i σ0 recs σ1 Hg Hd [_ Hi] Hrun IH
                 |σ i σ0 recs σ1 Hg [_ Hi] Hrun IH].
  - by rewrite app_nil_r.
  - done.
  - rewrite IH, Hi. simpl. rewrite call_calls. simpl. by rewrite <- app_assoc.
  - rewrite IH, Hi. simpl. rewrite call_calls. by rewrite <- app_assoc.
Qed.

Lemma _executeListener_turns l args now (σ : Realm) :
  in_turns σ (_executeListener l args now σ).1.
Proof.
  unfold _executeListener. destruct (limiter (this σ)) as [g|] eqn:Hg.
  - destruct (limit_enter g now) as [g' [start|]] eqn:Hd.
    + destruct (call l args start (set_this (set_limiter (Some g') (this σ)) σ))
        as [σ1 c] eqn:Hcall. simpl.
      eexists [mkInvocation l args start _].
      eapply (turn_started σ g now); [done|by rewrite Hd| |apply turn_done].
      unfold invoked, gate_handed. rewrite Hd. simpl. by rewrite Hcall.
    + simpl. exists []. eapply (turn_refused σ g now); [done|by rewrite Hd|].
      unfold gate_handed. rewrite Hd. apply turn_done.
  - destruct (call l args now σ) as [σ1 c] eqn:Hcall. simpl.
    eexists [mkInvocation l args now _].
    eapply turn_called; [done| |apply turn_done].
    unfold invoked. simpl. by rewrite Hcall, Hg.
Qed.

Lemma then_turns {A B} now (promise : Promise A)
    (onFulfilled : A -> time -> M (Promise B)) (σ : Realm) :
  (forall a t σ, in_turns σ (onFulfilled a t σ).1) ->
  in_turns σ (then_ now promise onFulfilled σ).1.
Proof.
  intros Hk. unfold then_. destruct promise as [t [a|e]|]; simpl.
  - specialize (Hk a (observed now t) σ).
    by destruct (onFulfilled a (observed now t) σ).
  - exists []. constructor.
  - exists []. constructor.
Qed.

Lemma fold_turns {A} (step : Realm * A -> fn -> Realm * A) ls acc :
  (forall acc l, in_turns acc.1 (step acc l).1) ->
  in_turns acc.1 (fold_left step ls acc).1.
Proof.
  intros Hstep. revert acc. induction ls as [|l ls IH]; intros acc; simpl.
  - exists []. constructor.
  - destruct (Hstep acc l) as [recs Hrecs]. destruct (IH (step acc l)) as [recs' Hrecs'].
    exists (recs ++ recs'). by eapply calls_in_turn_app.
Qed.

(** What an emission adds to the record are calls made in turn, and the
    realm it leaves is the one the last of them left. *)
Lemma emitParallel_in_turn event args now (σ : Realm) recs :
  calls (emitParallel event args now σ).1 = calls σ ++ recs ->
  calls_in_turn σ recs (emitParallel event args now σ).1.
Proof.
  intros Hcalls.
  assert (in_turns σ (emitParallel event args now σ).1) as [recs' Hturn].
  { unfold emitParallel.
    pose proof (fold_turns
      (fun '(σ, promises) listener =>
         let '(σ, p) := _executeListener listener args now σ in
         (σ, promises ++ [p]))
      (listeners event (this σ)) (σ, [])) as Hfold.
    simpl in Hfold. destruct (fold_left _ _ _) as [σ1 ps]. simpl. apply Hfold.
    intros [σ0 ps0] l. simpl.
    pose proof (_executeListener_turns l args now σ0) as Hl.
    by destruct (_executeListener l args now σ0). }
  pose proof (calls_in_turn_calls _ _ _ Hturn) as Hcalls'.
  rewrite Hcalls in Hcalls'. by apply app_inv_head in Hcalls' as ->.
Qed.

Lemma emitSerial_in_turn event args now (σ : Realm) recs :
  calls (emitSerial event args now σ).1 = calls σ ++ recs ->
  calls_in_turn σ recs (emitSerial event args now σ).1.
Proof.
  intros Hcalls.
  assert (in_turns σ (emitSerial event args now σ).1) as [recs' Hturn].
  { unfold emitSerial.
    apply (fold_turns _ (listeners event (this σ)) (σ, Promise_resolved now [])).
    intros [σ0 promise] l. simpl.
    apply then_turns. intros values t σ1.
    destruct (_executeListener_turns l args t σ1) as [recs1 Hl].
    destruct (_executeListener l args t σ1) as [σ2 p]. simpl in *.
    assert (in_turns σ2
      (then_ t p (fun value t' σ => (σ, Promise_resolved t' (values ++ [value]))) σ2).1)
      as [recs2 Hthen].
    { apply then_turns. intros value t' σ3. exists []. constructor. }
    exists (recs1 ++ recs2). by eapply calls_in_turn_app. }
  pose proof (calls_in_turn_calls _ _ _ Hturn) as Hcalls'.
  rewrite Hcalls in Hcalls'. by apply app_inv_head in Hcalls' as ->.
Qed.

Lemma _emitReduceRun_in_turn event args inverse now (σ : Realm) recs :
  calls (_emitReduceRun event args inverse now σ).1 = calls σ ++ recs ->
  calls_in_turn σ recs (_emitReduceRun event args inverse now σ).1.
Proof.
  intros Hcalls.
  assert (in_turns σ (_emitReduceRun event args inverse now σ).1) as [recs' Hturn].
  { unfold _emitReduceRun.
    apply (fold_turns _ _ (σ, Promise_resolved now (VArray args))).
    intros [σ0 promise] l. simpl.
    apply then_turns. intros prevArgs t σ1. apply _executeListener_turns. }
  pose proof (calls_in_turn_calls _ _ _ Hturn) as Hcalls'.
  rewrite Hcalls in Hcalls'. by apply app_inv_head in Hcalls' as ->.
Qed.

End InTurn.

(** *** What a run of a chain implies *)

Section Runs.
Context {host : Host}.
Context {S : Type} (args_of : S -> list value) (push : S -> value -> S).
Context (R : time -> time -> Prop).

#[local] Abbreviation run := (chain_run args_of push R).



(** Every invocation but the last came out fulfilled. *)
Lemma run_next_after_fulfilled T s ls recs p k i j :
  run T s ls recs p ->
  recs !! k = Some i -> recs !! (Datatypes.S k) = Some j ->
  exists v, fulfilled_with (inv_promise i) v.
Proof.
  intros Hrun. revert k.
  induction Hrun as [T s|T s l ls HB|T s l ls start HR|T s l ls start t e HR
                    |T s l ls start t v recs p HR Hrun IH]; intros k Hi Hj;
    try done.
  destruct k as [|k]; simpl in *.
  - simplify_eq. exists v. by exists t.
  - eauto.
Qed.





End Runs.

Section RunsInTime.
Context {host : Host}.
Context {S : Type} (args_of : S -> list value) (push : S -> value -> S).

#[local] Abbreviation run := (chain_run args_of push le).

(** With a gate that starts nothing early, no listener is started before
    the chain got to it. *)
Lemma run_first_start T s ls recs p i :
  run T s ls recs p -> recs !! 0 = Some i -> T <= inv_start i.
Proof. destruct 1; simpl; intros Hi; by simplify_eq. Qed.

(** ... and each one is started after the promise of the one before it
    has settled. *)
Lemma run_one_at_a_time T s ls recs p k i j :
  run T s ls recs p ->
  recs !! k = Some i -> recs !! (Datatypes.S k) = Some j ->
  exists t v, inv_promise i = Settles t (Fulfilled v) /\ t <= inv_start j.
Proof.
  intros Hrun. revert k.
  induction Hrun as [T s|T s l ls HB|T s l ls start HR|T s l ls start t e HR
                    |T s l ls start t v recs p HR Hrun IH]; intros k Hi Hj;
    try done.
  destruct k as [|k]; simpl in *.
  - simplify_eq. exists t, v. split; [done|].
    pose proof (run_first_start _ _ _ _ _ _ Hrun Hj).
    pose proof (settled_le_observed T t). lia.
  - eauto.
Qed.

End RunsInTime.

(** *** [emitSerial], [emitReduce] and [emitReduceRight] *)

Section Strategies.
Context {host : Host} {program : Listeners}.

(** The run of [emitSerial]. *)
Lemma emitSerial_run R event args now (σ : Realm) :
  starts_within R ->
  exists recs,
    calls (emitSerial event args now σ).1 = calls σ ++ recs
    /\ chain_run (fun _ => args) (fun values value => values ++ [value]) R
         now [] (listeners event (this σ)) recs (emitSerial event args now σ).2.
Proof.
  intros HR. rewrite emitSerial_chain.
  by apply (chain_fold_run _ _ R now (listeners event (this σ)) HR now [] σ).
Qed.

(** The run of [_emitReduceRun]. *)
Lemma _emitReduceRun_run R event args inverse now (σ : Realm) :
  starts_within R ->
  exists recs,
    calls (_emitReduceRun event args inverse now σ).1 = calls σ ++ recs
    /\ chain_run next_args (fun _ value => value) R
         now (VArray args) (reduce_order inverse (listeners event (this σ))) recs
         (_emitReduceRun event args inverse now σ).2.
Proof.
  intros HR. rewrite _emitReduceRun_chain.
  by apply (chain_fold_run _ _ R now _ HR now (VArray args) σ).
Qed.









End Strategies.

(** ** [Promise.all] and [emitParallel] *)

Section PromiseAll.
Context {host : Host}.

(** The reactions are those of the promises that settle, each at the
    position of its promise. *)
Lemma elem_of_reactions_from now k ps r :
  r ∈ reactions_from now k ps <->
  exists i t,
    r_index r = k + i
    /\ ps !! i = Some (Settles t (r_settlement r))
    /\ r_at r = observed now t
    /\ r_rank r = rank_of now t (r_index r).
Proof.
  revert k. induction ps as [|[t s|] ps IH]; intros k; simpl.
  - split; [by intros ?%elem_of_nil|by intros (i & t & _ & ? & _)].
  - rewrite elem_of_cons, IH. split.
    + intros [->|(i & t' & Hk & Hi & Ht)].
      * exists 0, t. simpl. split_and!; [lia|done|done|done].
      * exists (S i), t'. simpl. split_and!; [lia|done|apply Ht|apply Ht].
    + intros ([|i] & t' & Hk & Hi & Ht & Hrank); simpl in *.
      * left. simplify_eq. destruct r as [a rk j s']. simpl in *.
        unfold reaction_of. subst a rk. f_equal; [f_equal|]; lia.
      * right. exists i, t'. split_and!; [lia|done|done|done].
  - rewrite IH. split.
    + intros (i & t' & Hk & Hi & Ht). exists (S i), t'. simpl.
      split_and!; [lia|done|apply Ht|apply Ht].
    + intros ([|i] & t' & Hk & Hi & Ht); simpl in *; [done|].
      exists i, t'. split_and!; [lia|done|apply Ht|apply Ht].
Qed.

Lemma length_reactions_from now k ps :
  length (reactions_from now k ps) <= length ps.
Proof.
  revert k. induction ps as [|[t s|] ps IH]; intros k; simpl; [lia| |].
  - specialize (IH (S k)). lia.
  - specialize (IH (S k)). lia.
Qed.

(** When every promise settles there is a reaction for each. *)
Lemma length_reactions_from_settled now k ps :
  Forall (fun p => p <> Forever) ps ->
  length (reactions_from now k ps) = length ps.
Proof.
  intros Hps. revert k. induction Hps as [|[t s|] ps Hp Hps IH]; intros k; simpl.
  - done.
  - by rewrite IH.
  - done.
Qed.

(** The loop over the promises leaves one empty slot and one count for
    each of them. *)
Lemma fold_all_subscribe ps st :
  fold_left all_subscribe ps st
  = mkAll (all_values st ++ replicate (length ps) VUndefined)
      (length ps + all_remaining st) (all_result st).
Proof.
  revert st. induction ps as [|p ps IH]; intros [vals n res]; simpl.
  - by rewrite app_nil_r.
  - rewrite IH. simpl. f_equal; [|lia].
    by rewrite <- app_assoc.
Qed.

(** A result that is settled is not settled again. *)
Lemma all_react_settled rs st t s :
  all_result st = Settles t s ->
  all_result (fold_left all_react rs st) = Settles t s.
Proof.
  revert st. induction rs as [|r rs IH]; intros st Hst; [done|].
  simpl. apply IH. unfold all_react, all_countdown.
  destruct (r_settlement r) as [v|e]; simpl.
  - case_decide; by rewrite Hst.
  - by rewrite Hst.
Qed.

(** Fulfilments fewer than the count leave the result pending. *)
Lemma all_react_fulfilments rs st :
  Forall is_fulfilment rs ->
  length rs < all_remaining st ->
  all_result st = Forever ->
  all_result (fold_left all_react rs st) = Forever
  /\ all_remaining (fold_left all_react rs st) = all_remaining st - length rs
  /\ all_values (fold_left all_react rs st) = fold_left store rs (all_values st).
Proof.
  intros Hrs. revert st.
  induction Hrs as [|r rs [v Hr] Hrs IH]; intros st Hlen Hres; simpl in *.
  - split_and!; [done|lia|done].
  - destruct (IH (all_react st r)) as (IH1 & IH2 & IH3).
    + unfold all_react, all_countdown. rewrite Hr. simpl. lia.
    + unfold all_react, all_countdown. rewrite Hr. simpl.
      case_decide; [lia|done].
    + rewrite IH1, IH2, IH3. split_and!; [done| |].
      * unfold all_react, all_countdown. rewrite Hr. simpl. lia.
      * unfold all_react, all_countdown, store. by rewrite Hr.
Qed.

Lemma length_fold_store rs vals :
  length (fold_left store rs vals) = length vals.
Proof.
  revert vals. induction rs as [|r rs IH]; intros vals; [done|].
  simpl. rewrite IH. unfold store.
  destruct (r_settlement r); [apply length_insert|done].
Qed.

(** The slot of a position holds the value of the reactions for that
    position, whatever the order in which the reactions ran. *)
Lemma fold_store_lookup rs vals j v :
  j < length vals ->
  (exists r, r ∈ rs /\ r_index r = j) ->
  (forall r, r ∈ rs -> r_index r = j -> r_settlement r = Fulfilled v) ->
  fold_left store rs vals !! j = Some v.
Proof.
  intros Hj. induction rs as [|r rs IH] using rev_ind; intros (r0 & Hr0 & Hidx) Hval.
  - by apply elem_of_nil in Hr0.
  - rewrite fold_left_app. simpl.
    destruct (decide (r_index r = j)) as [Hrj|Hrj].
    + unfold store. rewrite (Hval r);
        [|apply elem_of_app; right; by apply list_elem_of_singleton|done].
      rewrite Hrj. apply list_lookup_insert_eq. by rewrite length_fold_store.
    + assert (fold_left store rs vals !! j = Some v) as Hrs.
      { apply IH.
        - exists r0. split; [|done].
          apply elem_of_app in Hr0 as [?|Hr0]; [done|].
          apply list_elem_of_singleton in Hr0. congruence.
        - intros r' Hr'. apply Hval, elem_of_app. by left. }
      unfold store. destruct (r_settlement r); [|done].
      by rewrite list_lookup_insert_ne.
Qed.

(** The state in which the reactions find [Promise.all]. *)
Lemma all_started now ps :
  all_countdown now (fold_left all_subscribe ps (mkAll [] 1 Forever))
  = mkAll (replicate (length ps) VUndefined) (length ps)
      (if decide (length ps = 0) then Settles now (Fulfilled []) else Forever).
Proof.
  rewrite fold_all_subscribe. unfold all_countdown. simpl.
  replace (pred (length ps + 1)) with (length ps) by lia.
  f_equal. case_decide as Hn; [|done].
  by rewrite Hn.
Qed.

Lemma elem_of_job_queue now ps r :
  r ∈ job_queue now ps <->
  exists t, ps !! r_index r = Some (Settles t (r_settlement r))
            /\ r_at r = observed now t
            /\ r_rank r = rank_of now t (r_index r).
Proof.
  unfold job_queue. rewrite merge_sort_Permutation, elem_of_reactions_from.
  split.
  - intros (i & t & Hi & Hp & Ht). simpl in Hi. subst i. by exists t.
  - intros (t & Hp & Ht). by exists (r_index r), t.
Qed.

Lemma job_queue_sorted now ps : StronglySorted reaction_le (job_queue now ps).
Proof. apply StronglySorted_merge_sort; apply _. Qed.

Lemma length_job_queue now ps : length (job_queue now ps) <= length ps.
Proof.
  unfold job_queue. rewrite merge_sort_Permutation. apply length_reactions_from.
Qed.

(** A promise that stays pending has no reaction. *)
Lemma length_reactions_from_forever now k ps :
  Forever ∈ ps -> length (reactions_from now k ps) < length ps.
Proof.
  revert k. induction ps as [|[t s|] ps IH]; intros k Hin; simpl.
  - by apply elem_of_nil in Hin.
  - apply elem_of_cons in Hin as [?|Hin]; [done|].
    specialize (IH (S k) Hin). lia.
  - pose proof (length_reactions_from now (S k) ps). lia.
Qed.

Lemma Promise_all_queue now ps :
  Promise_all now ps
  = all_result
      (fold_left all_react (job_queue now ps)
         (mkAll (replicate (length ps) VUndefined) (length ps)
            (if decide (length ps = 0) then Settles now (Fulfilled []) else Forever))).
Proof. unfold Promise_all. by rewrite all_started. Qed.

(** When all promises are fulfilled, [Promise.all] is fulfilled with
    their values in the order of the promises, whenever each settles. *)
Lemma Promise_all_fulfilled now ps vs :
  Forall2 fulfilled_with ps vs ->
  fulfilled_with (Promise_all now ps) vs.
Proof.
  intros Hps. rewrite Promise_all_queue.
  pose proof (Forall2_length _ _ _ Hps) as Hlen.
  pose proof (elem_of_job_queue now ps) as Hin.
  assert (Forall is_fulfilment (job_queue now ps)) as Hful.
  { apply Forall_forall. intros r (t & Hp & _)%Hin.
    destruct (Forall2_lookup_l _ _ _ _ _ Hps Hp) as (v & _ & t' & Hv).
    exists v. congruence. }
  assert (length (job_queue now ps) = length ps) as Hn.
  { unfold job_queue. rewrite merge_sort_Permutation.
    apply length_reactions_from_settled.
    apply Forall_forall. intros p Hp%list_elem_of_lookup. destruct Hp as [i Hp].
    destruct (Forall2_lookup_l _ _ _ _ _ Hps Hp) as (v & _ & t' & ->). done. }
  assert (fold_left store (job_queue now ps) (replicate (length ps) VUndefined) = vs)
    as Hvals.
  { apply list_eq. intros j.
    destruct (decide (j < length ps)) as [Hj|Hj].
    - destruct (lookup_lt_is_Some_2 ps j Hj) as [p Hp].
      destruct (Forall2_lookup_l _ _ _ _ _ Hps Hp) as (v & Hv & t & ->).
      rewrite Hv. apply fold_store_lookup.
      + by rewrite length_replicate.
      + exists (reaction_of now j t (Fulfilled v)). split; [|done].
        apply Hin. by exists t.
      + intros r (t' & Hr & _)%Hin Hidx. rewrite Hidx in Hr. congruence.
    - rewrite !lookup_ge_None_2; [done|lia|].
      rewrite length_fold_store, length_replicate. lia. }
  destruct (job_queue now ps) as [|r0 queue _] using rev_ind.
  - simpl in *. case_decide; [|lia].
    assert (vs = []) as -> by (apply nil_length_inv; lia). by exists now.
  - rewrite length_app in Hn. simpl in Hn.
    apply Forall_app in Hful as [Hful [[v Hlast] _]%Forall_cons].
    case_decide; [lia|].
    rewrite fold_left_app. simpl.
    set (st0 := mkAll (replicate (length ps) VUndefined) (length ps) Forever).
    destruct (all_react_fulfilments queue st0 Hful) as (Hres & Hrem & Hval);
      [simpl; lia|done|].
    exists (r_at r0). set (st1 := fold_left all_react queue st0) in *.
    unfold all_react, all_countdown. rewrite Hlast. simpl.
    rewrite Hres, Hrem. simpl.
    case_decide; [|lia]. simpl. do 2 f_equal.
    rewrite fold_left_app in Hvals. simpl in Hvals.
    unfold store at 1 in Hvals. rewrite Hlast in Hvals. by rewrite Hval.
Qed.

(** The first reaction of a queue that is not a fulfilment. *)
Lemma first_rejection (rs : list reaction) :
  Exists (fun r => ~ is_fulfilment r) rs ->
  exists pre r post,
    rs = pre ++ r :: post /\ Forall is_fulfilment pre /\ ~ is_fulfilment r.
Proof.
  induction rs as [|r rs IH]; intros Hex; [by apply Exists_nil in Hex|].
  destruct (r_settlement r) as [v|e] eqn:Hs.
  - apply Exists_cons in Hex as [Hr|Hex]; [destruct Hr; by exists v|].
    destruct (IH Hex) as (pre & r' & post & -> & Hpre & Hr').
    exists (r :: pre), r', post. split_and!; [done| |done].
    constructor; [by exists v|done].
  - exists [], r, rs. split_and!; [done|constructor|].
    intros [v Hv]. congruence.
Qed.

(** When some promise is rejected, [Promise.all] is rejected, with the
    reason of the rejection it observes first. *)
Lemma Promise_all_rejects now ps :
  (exists i t e, ps !! i = Some (Settles t (Rejected e))) ->
  exists index t e,
    ps !! index = Some (Settles t (Rejected e))
    /\ observed_first now ps index t
    /\ Promise_all now ps = Settles (observed now t) (Rejected e).
Proof.
  intros (i & ti & ei & Hi). rewrite Promise_all_queue.
  pose proof (elem_of_job_queue now ps) as Hin.
  pose proof (job_queue_sorted now ps) as Hsorted.
  pose proof (length_job_queue now ps) as Hn.
  assert (length ps <> 0) as Hne.
  { apply lookup_lt_Some in Hi. lia. }
  destruct (first_rejection (job_queue now ps)) as (pre & r & post & Hsplit & Hpre & Hr).
  { apply Exists_exists. exists (reaction_of now i ti (Rejected ei)).
    split; [apply Hin; by exists ti|]. by intros [v Hv]. }
  destruct (r_settlement r) as [v|e] eqn:Hs; [destruct Hr; by exists v|].
  assert (r ∈ job_queue now ps) as Hrin
    by (rewrite Hsplit; apply elem_of_app; right; apply elem_of_cons; by left).
  apply Hin in Hrin as (t & Hp & Ht & Hrank). rewrite Hs in Hp.
  exists (r_index r), t, e. split_and!.
  - done.
  - intros j t' e' Hj.
    set (other := reaction_of now j t' (Rejected e')).
    assert (other ∈ job_queue now ps) as Hother by (apply Hin; by exists t').
    assert (reaction_le r other) as Hle.
    { rewrite Hsplit in Hother, Hsorted.
      apply elem_of_app in Hother as [Hother|Hother].
      - rewrite Forall_forall in Hpre. destruct (Hpre _ Hother) as [v Hv]. done.
      - apply elem_of_cons in Hother as [<-|Hother]; [unfold reaction_le; lia|].
        apply StronglySorted_app_1_r, StronglySorted_cons in Hsorted as [Hall _].
        rewrite Forall_forall in Hall. by apply Hall. }
    unfold reaction_le in *. simpl in *. by rewrite <- Ht, <- Hrank.
  - rewrite Hsplit, fold_left_app. simpl.
    set (st0 := mkAll (replicate (length ps) VUndefined) (length ps)
                  (if decide (length ps = 0) then Settles now (Fulfilled [])
                   else Forever)).
    destruct (all_react_fulfilments pre st0 Hpre) as (Hres & _ & _).
    { rewrite Hsplit, length_app in Hn. simpl in *. lia. }
    { simpl. by case_decide. }
    apply all_react_settled. set (st1 := fold_left all_react pre st0) in *.
    unfold all_react. rewrite Hs. simpl.
    by rewrite Hres, Ht.
Qed.

(** One rejection only is observed first. *)
Lemma observed_first_unique now ps i t e i' t' e' :
  ps !! i = Some (Settles t (Rejected e)) ->
  ps !! i' = Some (Settles t' (Rejected e')) ->
  observed_first now ps i t ->
  observed_first now ps i' t' ->
  i = i' /\ t = t' /\ e = e'.
Proof.
  intros Hi Hi' Hfirst Hfirst'.
  specialize (Hfirst _ _ _ Hi'). specialize (Hfirst' _ _ _ Hi).
  unfold reaction_le in Hfirst, Hfirst'. simpl in Hfirst, Hfirst'.
  assert (i = i') as <- by lia.
  rewrite Hi in Hi'. by simplify_eq.
Qed.

Lemma Promise_all_rejected now ps index t e :
  ps !! index = Some (Settles t (Rejected e)) ->
  observed_first now ps index t ->
  Promise_all now ps = Settles (observed now t) (Rejected e).
Proof.
  intros Hp Hfirst.
  destruct (Promise_all_rejects now ps) as (i' & t' & e' & Hp' & Hfirst' & ->);
    [by exists index, t, e|].
  by destruct (observed_first_unique _ _ _ _ _ _ _ _ Hp Hp' Hfirst Hfirst')
    as (_ & -> & ->).
Qed.

(** Of two promises that are rejected at one instant after the call, the
    one the host lets settle first gives the reason, whichever comes
    first in the list. *)
Lemma Promise_all_same_instant now t a b :
  now < t ->
  Promise_all now [Settles t (Rejected a); Settles t (Rejected b)]
  = Settles t
      (Rejected (if decide (settle_order t 0 <= settle_order t 1) then a else b)).
Proof.
  intros Hlate.
  assert (observed now t = t) as Hobs by (apply observed_ge; lia).
  assert (forall i, rank_of now t i = settle_order t i) as Hrank.
  { intros i. unfold rank_of. by rewrite decide_False by lia. }
  case_decide as Horder.
  - rewrite (Promise_all_rejected now _ 0 t a); [by rewrite Hobs|done|].
    intros [|[|j]] t' e' Hj; simplify_eq/=;
      unfold reaction_le, reaction_of; simpl; rewrite !Hrank; lia.
  - rewrite (Promise_all_rejected now _ 1 t b); [by rewrite Hobs|done|].
    intros [|[|j]] t' e' Hj; simplify_eq/=;
      unfold reaction_le, reaction_of; simpl; rewrite !Hrank; lia.
Qed.



(** [Promise.all] is fulfilled only when all its promises are, and then
    with their values. *)
Lemma Promise_all_fulfilled_inv now ps vs :
  fulfilled_with (Promise_all now ps) vs ->
  Forall2 fulfilled_with ps vs.
Proof.
  intros [T Hful].
  assert (Forall (fun p => exists v, fulfilled_with p v) ps) as Hall.
  { apply Forall_forall. intros p Hp.
    destruct p as [t [v|e]|].
    - exists v. by exists t.
    - apply list_elem_of_lookup in Hp as [i Hi].
      destruct (Promise_all_rejects now ps) as (i' & t' & e' & _ & _ & Hres);
        [by exists i, t, e|].
      congruence.
    - exfalso. rewrite Promise_all_queue in Hful.
      assert (length (job_queue now ps) < length ps) as Hlt.
      { unfold job_queue. rewrite merge_sort_Permutation.
        by apply length_reactions_from_forever. }
      assert (length ps <> 0) as Hne by lia.
      destruct (decide (Exists (fun r => ~ is_fulfilment r) (job_queue now ps)))
        as [Hex|Hno].
      + apply Exists_exists in Hex as (r & Hr & Hnf).
        apply elem_of_job_queue in Hr as (t & Hr & _).
        destruct (r_settlement r) as [v|e] eqn:Hs; [destruct Hnf; by exists v|].
        destruct (Promise_all_rejects now ps) as (i' & t' & e' & _ & _ & Hres);
          [by exists (r_index r), t, e|].
        rewrite Promise_all_queue in Hres. congruence.
      + apply not_Exists_Forall in Hno; [|intros r; apply _].
        assert (Forall is_fulfilment (job_queue now ps)) as Hq.
        { eapply Forall_impl; [exact Hno|]. intros r Hr. simpl in Hr.
          by destruct (decide (is_fulfilment r)). }
        destruct (all_react_fulfilments (job_queue now ps)
                    (mkAll (replicate (length ps) VUndefined) (length ps)
                       (if decide (length ps = 0) then Settles now (Fulfilled [])
                        else Forever)) Hq) as (Hres & _ & _).
        * simpl. lia.
        * simpl. by case_decide.
        * congruence. }
  assert (exists ws, Forall2 fulfilled_with ps ws) as [ws Hws].
  { clear -Hall. induction Hall as [|p ps [v Hv] _ [ws IH]].
    - by exists [].
    - exists (v :: ws). by constructor. }
  destruct (Promise_all_fulfilled now ps ws Hws) as [T' Hful'].
  rewrite Hful in Hful'. by simplify_eq.
Qed.

End PromiseAll.

Section Parallel.
Context {host : Host} {program : Listeners}.

Lemma emitParallel_loop R args now ls :
  starts_within R ->
  forall (σ : Realm) ps0,
    let r :=
      fold_left
        (fun '(σ, promises) listener =>
           let '(σ, p) := _executeListener listener args now σ in
           (σ, promises ++ [p]))
        ls (σ, ps0) in
    exists recs ps,
      r.2 = ps0 ++ ps
      /\ calls r.1 = calls σ ++ recs
      /\ started R now args ls recs ps.
Proof.
  intros HR. induction ls as [|l ls IH]; intros σ ps0; simpl.
  - exists [], []. rewrite !app_nil_r. split_and!; [done|done|constructor].
  - destruct (_executeListener_calls R l args now σ HR)
      as [(HB & Hp & Hc)|(start & Hstart & Hc)];
      destruct (_executeListener l args now σ) as [σ1 p]; simpl in *;
      destruct (IH σ1 (ps0 ++ [p])) as (recs & ps & Hps & Hcalls & Hrun).
    + subst p. exists recs, (Forever :: ps). split_and!.
      * by rewrite Hps, <- app_assoc.
      * by rewrite Hcalls, Hc.
      * by constructor.
    + exists (mkInvocation l args start p :: recs), (p :: ps). split_and!.
      * by rewrite Hps, <- app_assoc.
      * by rewrite Hcalls, Hc, <- app_assoc.
      * by constructor.
Qed.

(** The run of [emitParallel]. *)
Lemma emitParallel_run R event args now (σ : Realm) :
  starts_within R ->
  exists recs ps,
    calls (emitParallel event args now σ).1 = calls σ ++ recs
    /\ started R now args (listeners event (this σ)) recs ps
    /\ (emitParallel event args now σ).2 = Promise_all now ps.
Proof.
  intros HR. unfold emitParallel.
  destruct (emitParallel_loop R args now (listeners event (this σ)) HR σ [])
    as (recs & ps & Hps & Hcalls & Hrun).
  destruct (fold_left _ _ _) as [σ1 promises]. simpl in *. subst promises.
  by exists recs, ps.
Qed.

(** The listeners are started in registration order, each at most once. *)
Lemma started_listeners R now args ls recs ps :
  started R now args ls recs ps ->
  map inv_listener recs `sublist_of` ls /\ length ps = length ls.
Proof.
  induction 1 as [|l ls recs ps HB Hrun [IH1 IH2]|l ls start p recs ps HR Hrun [IH1 IH2]];
    simpl.
  - done.
  - split; [by apply sublist_cons|by rewrite IH2].
  - split; [by apply sublist_skip|by rewrite IH2].
Qed.



(** When every listener was started, the promises handed to
    [Promise.all] are those of the invocations, in registration order. *)
Lemma started_all R now args ls recs ps :
  started R now args ls recs ps ->
  length recs = length ls ->
  map inv_listener recs = ls /\ ps = map inv_promise recs.
Proof.
  induction 1 as [|l ls recs ps HB Hrun IH|l ls start p recs ps HR Hrun IH];
    simpl; intros Hlen.
  - done.
  - destruct (started_listeners _ _ _ _ _ _ Hrun) as [Hsub _].
    apply sublist_length in Hsub. rewrite length_map in Hsub. lia.
  - destruct IH as [-> ->]; [lia|done].
Qed.

(** A listener that was not started leaves a promise that stays
    pending. *)
Lemma started_all_settled R now args ls recs ps :
  started R now args ls recs ps ->
  Forall (fun p => p <> Forever) ps ->
  length recs = length ls.
Proof.
  induction 1 as [|l ls recs ps HB Hrun IH|l ls start p recs ps HR Hrun IH];
    simpl; intros Hps.
  - done.
  - by apply Forall_cons in Hps as [? _].
  - apply Forall_cons in Hps as [_ Hps]. by rewrite IH.
Qed.




(** C10. With no listener registered for the event, [emitParallel] and
    [emitSerial] invoke nothing and resolve to the empty array, whatever
    the arguments. *)
Theorem emit_without_listeners event args now (σ : Realm) :
  listeners event (this σ) = [] ->
  emitParallel event args now σ = (σ, Settles now (Fulfilled []))
  /\ emitSerial event args now σ = (σ, Settles now (Fulfilled [])).
Proof.
  intros Hnil. unfold emitParallel, emitSerial. rewrite Hnil. simpl.
  split; [|done]. f_equal.
Qed.

End Parallel.

(** ** The scenarios of the test suite *)

(** C1 (the code at the failing input). After
    [once("foo", f); emitParallel("foo", "bar")] the closure has fired
    and has taken itself out of the registry, and [onceMap] still holds
    the entry of [f]: the closure calls [removeListener] with itself,
    which has no entry, where an entry is looked up under [f]. The entry
    left behind then misleads a later [removeListener]: after
    [on("foo", f); removeListener("foo", f)] the listener [f] is still
    registered. *)
Theorem once_entry_outlives_firing :
  let f := Fn 0 in
  let r := emitParallel "foo" [VString "bar"] 0 once_foo in
  onceMap (this once_foo) !! f = Some (OnceFn 0 "foo" f)
  /\ listeners "foo" (this once_foo) = [OnceFn 0 "foo" f]
  /\ r.2 = Settles 0 (Fulfilled [VString "bar"])
  /\ 0 ∈ fired r.1
  /\ listeners "foo" (this r.1) = []
  /\ onceMap (this r.1) !! f = Some (OnceFn 0 "foo" f)
  /\ listeners "foo" (removeListener "foo" f (on "foo" f (this r.1))) = [f].
Proof. vm_compute. split_and!; reflexivity. Qed.

(** C2: the rule at [2], at [1.5], at [Infinity] and at ["2"] on this
    host, whose [pLimit] throws on 1.5. *)
Lemma setConcurrency_on_suite :
  (exists g, setConcurrency (VNumber 2) emitter = Normal (gated g emitter))
  /\ (exists err, setConcurrency (VNumber 0x1.8p0) emitter = Throw err)
  /\ (exists g, setConcurrency (VNumber infinity) emitter = Normal (gated g emitter))
  /\ setConcurrency (VString "2") emitter = Normal emitter
  /\ new (VNumber 2) blank = setConcurrency (VNumber 2) emitter.
Proof.
  pose proof (setConcurrency_number_from_one (VNumber 2) emitter)
    as (H2 & _ & _ & _ & _ & _ & _).
  pose proof (setConcurrency_number_from_one (VNumber 0x1.8p0) emitter)
    as (_ & Hfrac & _ & _ & _ & _ & _).
  pose proof (setConcurrency_number_from_one (VNumber infinity) emitter)
    as (Hinf & _ & _ & _ & _ & _ & _).
  pose proof (setConcurrency_number_from_one (VString "2") emitter)
    as (_ & _ & _ & Hstr & _ & _ & _).
  pose proof (setConcurrency_number_from_one (VNumber 2) blank)
    as (_ & _ & _ & _ & _ & Hnew & _).
  split_and!.
  - eexists. apply (H2 2%float); [reflexivity|by vm_compute|by vm_compute].
  - eexists. apply (Hfrac 0x1.8p0%float); [reflexivity|by vm_compute|by vm_compute].
  - eexists. apply (Hinf infinity); [reflexivity|by vm_compute|by vm_compute].
  - apply Hstr. discriminate.
  - exact Hnew.
Defined.

(** C9: an instance made with [new AsyncEventEmitter(2)] keeps a gate
    through [setConcurrency(undefined)], [setConcurrency(0)],
    [setConcurrency(1.5)] and [setConcurrency(3)]. *)
Lemma gate_kept_on_suite :
  is_Some (limiter (this (returns (new (VNumber 2) blank))))
  /\ is_Some (limiter (this
       (setConcurrency_calls
          [VUndefined; VNumber 0; VNumber 0x1.8p0; VNumber 3]
          (returns (new (VNumber 2) blank))))).
Proof.
  assert (is_Some (limiter (this (returns (new (VNumber 2) blank))))) as Hgate
    by (vm_compute; by eexists).
  split; [exact Hgate|].
  exact (proj2 (setConcurrency_never_removes_gate _ Hgate) _).
Defined.

(** C10: [emitParallel("noop", 1)] and [emitSerial("noop", 1)] on an
    instance without listeners. *)
Lemma emit_noop_on_suite :
  (emitParallel "noop" [VNumber 1] 7 emitter).2 = Settles 7 (Fulfilled [])
  /\ (emitSerial "noop" [VNumber 1] 7 emitter).2 = Settles 7 (Fulfilled []).
Proof.
  destruct (emit_without_listeners "noop" [VNumber 1] 7 emitter) as [Hp Hs];
    [reflexivity|].
  by rewrite Hp, Hs.
Defined.









(** ** The closure of [once], in general *)

Section Firing.
Context {host : Host} {program : Listeners}.

(** When the closure [onceListener] of a listener [f] is called for the
    first time, it takes itself out of the registry, sets [fired] and
    calls [f]; unless it was itself given to [once], the mapping is handed
    on to [f] as it was found, the entry of [f] included. *)
Lemma once_closure_fires k event f args now (σ : Realm) :
  onceMap (this σ) !! OnceFn k event f = None ->
  k ∉ fired σ ->
  let σ' :=
    set_fired k
      (set_this (EventEmitter_removeListener event (OnceFn k event f) (this σ)) σ) in
  call (OnceFn k event f) args now σ = call f args now σ'
  /\ onceMap (this σ') = onceMap (this σ)
  /\ listeners event (this σ') = remove_last (OnceFn k event f) (listeners event (this σ)).
Proof.
  intros Hnone Hfresh σ'. split_and!.
  - simpl. unfold removeListener. rewrite Hnone. simpl.
    by rewrite decide_False.
  - apply onceMap_EventEmitter_removeListener.
  - apply listeners_EventEmitter_removeListener.
Qed.

(** A closure that has fired returns [undefined] without calling its
    listener. *)
Lemma once_closure_fired k event f args now (σ : Realm) :
  k ∈ fired σ ->
  (call (OnceFn k event f) args now σ).2 = Normal (RValue VUndefined).
Proof. intros Hfired. simpl. by rewrite decide_True. Qed.

End Firing.

(** ** The test suite, replayed *)

(** [emitParallel()]: the values of the listeners; the first error only,
    in the three orders the suite tries. *)
Example suite_emitParallel :
  (emitParallel "foo" [VString "bar"] 0 (on_all "foo" [0; 1] emitter)).2
    = Settles 1 (Fulfilled [VString "bar"; VString "bar"])
  /\ (emitParallel "foo" [VString "bar"] 0 (on_all "foo" [0; 2; 3] emitter)).2
    = Settles 0 (Rejected (Error "beep"))
  /\ (emitParallel "foo" [VString "bar"] 0 (on_all "foo" [0; 3; 2] emitter)).2
    = Settles 0 (Rejected (Error "boop"))
  /\ (emitParallel "foo" [VString "bar"] 0 (on_all "foo" [0; 4; 2] emitter)).2
    = Settles 0 (Rejected (Error "boop")).
Proof. vm_compute. split_and!; reflexivity. Qed.

(** [emitSerial()]: one after the other, and the first error only. *)
Example suite_emitSerial :
  (emitSerial "delay" [VNumber 100] 0 (on_all "delay" [5; 5; 5] emitter)).2
    = Settles 300 (Fulfilled [VString "slow"; VString "slow"; VString "slow"])
  /\ map inv_start
       (calls (emitSerial "delay" [VNumber 100] 0 (on_all "delay" [5; 5; 5] emitter)).1)
    = [0; 100; 200]
  /\ (emitSerial "delay" [VNumber 100] 0 (on_all "delay" [5; 3; 2] emitter)).2
    = Settles 100 (Rejected (Error "boop")).
Proof. vm_compute. split_and!; reflexivity. Qed.

(** [emitReduce()/emitReduceRight()]: the results of the suite. *)
Example suite_emitReduce :
  (emitReduce "noop" [] 0 emitter).2 = Settles 0 (Fulfilled (VArray []))
  /\ (emitReduce "noop" [VNumber 1] 0 emitter).2
    = Settles 0 (Fulfilled (VArray [VNumber 1]))
  /\ (emitReduce "square" [VArray []; VNumber 2] 0
        (on_all "square" [10; 11; 12] emitter)).2
    = Settles 0 (Fulfilled
        (VArray [VArray [VNumber 1; VNumber 2; VNumber 3]; VNumber 256]))
  /\ (emitReduceRight "square" [VArray []; VNumber 2] 0
        (on_all "square" [10; 11; 12] emitter)).2
    = Settles 0 (Fulfilled
        (VArray [VArray [VNumber 3; VNumber 2; VNumber 1]; VNumber 256]))
  /\ (emitReduce "normal" [] 0 (on_all "normal" [20; 21] emitter)).2
    = Settles 0 (Fulfilled (VArray [VNumber 1]))
  /\ (emitReduce "square" [VArray []; VNumber 1] 0
        (on_all "square" [10; 3; 2] emitter)).2
    = Settles 0 (Rejected (Error "boop"))
  /\ (emitReduceRight "square" [VArray []; VNumber 1] 0
        (on_all "square" [10; 3; 2] emitter)).2
    = Settles 0 (Rejected (Error "beep")).
Proof. vm_compute. split_and!; reflexivity. Qed.

(** [once()] and [subscribe()]: a listener registered once is run by the
    first emission only; a non-function is refused; the handle of
    [subscribe] removes the listener, also one registered once that has
    not fired (regression test #3 does the same with [removeListener]). *)
Example suite_once_subscribe :
  let first := emitParallel "foo" [VString "bar"] 0 once_foo in
  let handle (c : completion (Realm * (Realm -> Realm))) :=
    match c with
    | Normal (σ, unsubscribe) => unsubscribe σ
    | Throw _ => blank
    end in
  first.2 = Settles 0 (Fulfilled [VString "bar"])
  /\ (emitParallel "foo" [VString "bar"] 1 first.1).2 = Settles 1 (Fulfilled [])
  /\ once "foo" (VString "bad argument!") emitter
     = Throw (TypeError "listener must be a function")
  /\ (emitParallel "foo" [VString "bar"] 0
        (handle (subscribe "foo" (Fn 0) false emitter))).2
     = Settles 0 (Fulfilled [])
  /\ (emitParallel "foo" [VString "bar"] 0
        (handle (subscribe "foo" (Fn 0) true emitter))).2
     = Settles 0 (Fulfilled [])
  /\ (emitParallel "foo" [] 0
        (set_this (removeListener "foo" (Fn 0) (this once_foo)) once_foo)).2
     = Settles 0 (Fulfilled []).
Proof. vm_compute. split_and!; reflexivity. Qed.

(** * Further properties *)

(** ** Removing from the registry *)

Section Removal.
Context {host : Host}.

Lemma remove_first_split x l :
  x ∈ l ->
  exists l1 l2, l = l1 ++ x :: l2 /\ (x ∉ l1) /\ remove_first x l = l1 ++ l2.
Proof.
  induction l as [|y l IH]; intros Hin; [by apply elem_of_nil in Hin|].
  simpl. destruct (decide (y = x)) as [->|Hne].
  - exists [], l. split_and!; [done|apply not_elem_of_nil|done].
  - apply elem_of_cons in Hin as [?|Hin]; [congruence|].
    destruct (IH Hin) as (l1 & l2 & -> & Hnot & ->).
    exists (y :: l1), l2. split_and!; [done| |done].
    intros [?|?]%elem_of_cons; [congruence|done].
Qed.

Lemma remove_first_notin x l : x ∉ l -> remove_first x l = l.
Proof.
  induction l as [|y l IH]; intros Hnot; [done|].
  simpl. rewrite decide_False.
  - rewrite IH; [done|]. intros ?. apply Hnot. by right.
  - intros ->. apply Hnot. by left.
Qed.

(** [remove_last] takes out the last occurrence, and nothing when there
    is none. *)
Lemma remove_last_split x l :
  x ∈ l ->
  exists l1 l2, l = l1 ++ x :: l2 /\ (x ∉ l2) /\ remove_last x l = l1 ++ l2.
Proof.
  intros Hin. unfold remove_last.
  destruct (remove_first_split x (reverse l)) as (a & b & Hrev & Hnot & ->);
    [by apply elem_of_reverse|].
  exists (reverse b), (reverse a). split_and!.
  - rewrite <- (reverse_involutive l), Hrev.
    by rewrite reverse_app, reverse_cons, <- app_assoc.
  - by rewrite elem_of_reverse.
  - by rewrite reverse_app.
Qed.

Lemma remove_last_notin x l : x ∉ l -> remove_last x l = l.
Proof.
  intros Hnot. unfold remove_last. rewrite remove_first_notin.
  - apply reverse_involutive.
  - by rewrite elem_of_reverse.
Qed.

Lemma remove_last_snoc x l : remove_last x (l ++ [x]) = l.
Proof.
  unfold remove_last. rewrite reverse_snoc. simpl.
  rewrite decide_True by done. apply reverse_involutive.
Qed.

Lemma remove_last_sublist x l : (remove_last x l) `sublist_of` l.
Proof.
  destruct (decide (x ∈ l)) as [Hin|Hnot].
  - destruct (remove_last_split x l Hin) as (l1 & l2 & -> & _ & ->).
    apply sublist_app; [done|]. by apply sublist_cons.
  - by rewrite remove_last_notin.
Qed.

Lemma remove_last_length x l :
  length l = length (remove_last x l) + (if decide (x ∈ l) then 1 else 0).
Proof.
  case_decide as Hin.
  - destruct (remove_last_split x l Hin) as (l1 & l2 & -> & _ & ->).
    rewrite !length_app. simpl. lia.
  - rewrite remove_last_notin by done. lia.
Qed.

Lemma remove_last_elem_of_ne x y l :
  x <> y -> y ∈ l -> y ∈ remove_last x l.
Proof.
  intros Hne Hy. destruct (decide (x ∈ l)) as [Hin|Hnot].
  - destruct (remove_last_split x l Hin) as (l1 & l2 & -> & _ & ->).
    apply elem_of_app in Hy as [?|[?|?]%elem_of_cons]; [|congruence|].
    + apply elem_of_app. by left.
    + apply elem_of_app. by right.
  - by rewrite remove_last_notin.
Qed.

Lemma listeners_on event event' f (e : AsyncEventEmitter) :
  listeners event' (on event f e)
  = if decide (event = event') then listeners event e ++ [f]
    else listeners event' e.
Proof.
  unfold on, listeners at 1. simpl. case_decide as Hev.
  - subst. by rewrite lookup_insert_eq.
  - by rewrite lookup_insert_ne.
Qed.

Lemma listeners_removeListener_ne event event' l (e : AsyncEventEmitter) :
  event <> event' ->
  listeners event' (removeListener event l e) = listeners event' e.
Proof.
  intros Hne. unfold removeListener.
  destruct (onceMap e !! l); by rewrite listeners_EventEmitter_removeListener_ne.
Qed.

Lemma onceMap_removeListener event l (e : AsyncEventEmitter) :
  onceMap (removeListener event l e) = delete l (onceMap e).
Proof.
  unfold removeListener. destruct (onceMap e !! l) as [t|] eqn:Hl.
  - by rewrite onceMap_EventEmitter_removeListener.
  - rewrite onceMap_EventEmitter_removeListener. by rewrite delete_id.
Qed.

(** The listener [removeListener] takes out of the registry. *)
Lemma listeners_removeListener event l (e : AsyncEventEmitter) :
  listeners event (removeListener event l e)
  = remove_last (default l (onceMap e !! l)) (listeners event e).
Proof.
  unfold removeListener. destruct (onceMap e !! l) as [t|];
    by rewrite listeners_EventEmitter_removeListener.
Qed.

(** X1. [removeListener(event, listener)] is local: the listeners of the
    other events and the gate stay, of [onceMap] the entry of [listener]
    goes and no other, and [event] loses one listener at most, the others
    keeping their order. *)
Theorem removeListener_local event l (e : AsyncEventEmitter) :
  (forall event', event' <> event ->
     listeners event' (removeListener event l e) = listeners event' e)
  /\ limiter (removeListener event l e) = limiter e
  /\ onceMap (removeListener event l e) = delete l (onceMap e)
  /\ (listeners event (removeListener event l e)) `sublist_of` (listeners event e)
  /\ length (listeners event e) <= S (length (listeners event (removeListener event l e))).
Proof.
  split_and!.
  - intros event' Hne. by apply listeners_removeListener_ne.
  - apply limiter_removeListener.
  - apply onceMap_removeListener.
  - rewrite listeners_removeListener. apply remove_last_sublist.
  - rewrite listeners_removeListener.
    pose proof (remove_last_length (default l (onceMap e !! l)) (listeners event e))
      as Hlen.
    case_decide; lia.
Qed.

End Removal.


(** ** [once], [removeListener] and [subscribe] together *)

Section Subscriptions.
Context {host : Host}.

Lemma fn_ne_OnceFn k event f : f <> OnceFn k event f.
Proof. intros Heq. apply (f_equal depth) in Heq. simpl in Heq. lia. Qed.

Lemma remove_last_snoc_ne x y l :
  x <> y -> remove_last x (l ++ [y]) = remove_last x l ++ [y].
Proof.
  intros Hne. unfold remove_last. rewrite reverse_snoc. simpl.
  rewrite decide_False by done. by rewrite reverse_cons.
Qed.

(** What [once] leaves as it was. *)
Lemma once_elsewhere event f (σ : Realm) :
  exists σ1,
    once event (VFunction f) σ = Normal σ1
    /\ (forall event', event' <> event ->
          listeners event' (this σ1) = listeners event' (this σ))
    /\ onceMap (this σ1) = <[f := OnceFn (allocated σ) event f]> (onceMap (this σ))
    /\ limiter (this σ1) = limiter (this σ)
    /\ fired σ1 = fired σ.
Proof.
  eexists. split; [reflexivity|]. simpl. split_and!; try done.
  intros event' Hne. unfold listeners. simpl. by rewrite lookup_insert_ne.
Qed.

(** [once(event, f)] followed by [removeListener(event, f)] gives back
    the listeners every event had. *)
Lemma once_removeListener_listeners event f (σ σ1 : Realm) :
  once event (VFunction f) σ = Normal σ1 ->
  forall event',
    listeners event' (removeListener event f (this σ1)) = listeners event' (this σ).
Proof.
  intros Honce event'.
  destruct (once_registers event f σ) as (σ1' & Honce' & Hls & Hentry & _).
  destruct (once_elsewhere event f σ) as (σ1'' & Honce'' & Helse & _).
  rewrite Honce in Honce', Honce''. simplify_eq.
  destruct (decide (event' = event)) as [->|Hne].
  - destruct (removeListener_entry event f _ (this σ1') Hentry) as [_ ->].
    rewrite Hls. apply remove_last_snoc.
  - rewrite listeners_removeListener_ne by done. by apply Helse.
Qed.

(** X2. [once(event, f)] followed by [removeListener(event, f)] gives
    back the listeners every event had, and the gate; the closure is
    found through the entry of [f], which is deleted, and with it an
    entry [f] had before. *)
Theorem once_then_removeListener event f (σ : Realm) :
  exists σ1,
    once event (VFunction f) σ = Normal σ1
    /\ (forall event',
          listeners event' (removeListener event f (this σ1))
          = listeners event' (this σ))
    /\ onceMap (removeListener event f (this σ1)) = delete f (onceMap (this σ))
    /\ limiter (removeListener event f (this σ1)) = limiter (this σ).
Proof.
  destruct (once_elsewhere event f σ) as (σ1 & Honce & _ & Hmap1 & Hlim1 & _).
  exists σ1. split_and!.
  - done.
  - by apply once_removeListener_listeners.
  - rewrite onceMap_removeListener, Hmap1. apply delete_insert_eq.
  - by rewrite limiter_removeListener.
Qed.

(** X3. After [once(event, f)] was called twice, the mapping knows the second
    closure only: one [removeListener(event, f)] removes that one, and
    the first closure stays registered however often
    [removeListener(event, f)] is called again. *)
Theorem once_twice_leaves_first_closure event f (n : nat) (σ : Realm) :
  exists σ1 σ2 w1 w2,
    once event (VFunction f) σ = Normal σ1
    /\ once event (VFunction f) σ1 = Normal σ2
    /\ w1 <> w2
    /\ listeners event (this σ2) = listeners event (this σ) ++ [w1; w2]
    /\ onceMap (this σ2) !! f = Some w2
    /\ listeners event (removeListener event f (this σ2))
       = listeners event (this σ) ++ [w1]
    /\ onceMap (removeListener event f (this σ2)) !! f = None
    /\ w1 ∈ listeners event
              (Nat.iter n (removeListener event f)
                 (removeListener event f (this σ2))).
Proof.
  destruct (once_registers event f σ) as (σ1 & Honce1 & Hls1 & Hentry1 & Hal1).
  destruct (once_registers event f σ1) as (σ2 & Honce2 & Hls2 & Hentry2 & Hal2).
  exists σ1, σ2, (OnceFn (allocated σ) event f), (OnceFn (allocated σ1) event f).
  destruct (removeListener_entry event f _ (this σ2) Hentry2) as [Hgone Hrm].
  assert (listeners event (removeListener event f (this σ2))
          = listeners event (this σ) ++ [OnceFn (allocated σ) event f]) as Hone.
  { rewrite Hrm, Hls2, remove_last_snoc. done. }
  split_and!; try done.
  - intros Heq. simplify_eq. lia.
  - rewrite Hls2, Hls1. by rewrite <- app_assoc.
  - induction n as [|n IH].
    + simpl. rewrite Hone. apply elem_of_app. right. by apply list_elem_of_singleton.
    + assert (onceMap (Nat.iter n (removeListener event f)
                (removeListener event f (this σ2))) !! f = None) as Hnone.
      { clear IH. induction n as [|n IHn]; [done|].
        simpl. rewrite onceMap_removeListener. apply lookup_delete_eq. }
      simpl.
      destruct (removeListener_no_entry event f _ Hnone) as [_ ->].
      apply remove_last_elem_of_ne; [apply fn_ne_OnceFn|done].
Qed.

(** X4. [subscribe] followed by the handle it returned gives back the
    listeners every event had, the mapping and the gate, in both modes,
    for a listener that had no entry in the mapping. *)
Theorem subscribe_then_unsubscribe event f (once_ : bool) (σ : Realm) :
  onceMap (this σ) !! f = None ->
  exists σ1 handle,
    subscribe event f once_ σ = Normal (σ1, handle)
    /\ length (listeners event (this σ1)) = S (length (listeners event (this σ)))
    /\ (forall event',
          listeners event' (this (handle σ1)) = listeners event' (this σ))
    /\ onceMap (this (handle σ1)) = onceMap (this σ)
    /\ limiter (this (handle σ1)) = limiter (this σ)
    /\ fired (handle σ1) = fired σ.
Proof.
  intros Hnone. unfold subscribe. destruct once_.
  - destruct (once_registers event f σ) as (σ1 & Honce & Hreg & _).
    destruct (once_elsewhere event f σ) as (σ1' & Honce' & _ & Hmap1 & Hlim1 & Hfired).
    rewrite Honce in Honce'. simplify_eq.
    rewrite Honce. exists σ1', (unsubscribe event f).
    unfold unsubscribe. simpl. split_and!.
    + done.
    + rewrite Hreg, length_app. simpl. lia.
    + by apply once_removeListener_listeners.
    + rewrite onceMap_removeListener, Hmap1, delete_insert_eq. by apply delete_id.
    + by rewrite limiter_removeListener.
    + done.
  - eexists _, _. split; [reflexivity|]. unfold unsubscribe. simpl.
    assert (onceMap (on event f (this σ)) !! f = None) as Hnone' by done.
    destruct (removeListener_no_entry event f _ Hnone') as [Hmap Hrm].
    split_and!.
    + rewrite listeners_on, decide_True by done. rewrite length_app. simpl. lia.
    + intros event'. destruct (decide (event' = event)) as [->|Hne].
      * rewrite Hrm, listeners_on, decide_True by done. apply remove_last_snoc.
      * rewrite listeners_removeListener_ne by done.
        rewrite listeners_on. by rewrite decide_False.
    + done.
    + by rewrite limiter_removeListener.
    + done.
Qed.

(** X5. A stale entry makes the handle miss: when the mapping holds for [f]
    a closure that is no longer registered (as a closure that fired
    leaves it), the handle of [subscribe(event, f)] deletes the entry and
    leaves [f] registered; only a second call of the handle removes it. *)
Theorem subscribe_handle_misses_after_stale_entry event f w (σ : Realm) :
  onceMap (this σ) !! f = Some w ->
  w <> f ->
  w ∉ listeners event (this σ) ->
  exists σ1 handle,
    subscribe event f false σ = Normal (σ1, handle)
    /\ listeners event (this (handle σ1)) = listeners event (this σ) ++ [f]
    /\ onceMap (this (handle σ1)) !! f = None
    /\ listeners event (this (handle (handle σ1))) = listeners event (this σ).
Proof.
  intros Hentry Hne Hnot. eexists _, _. split; [reflexivity|].
  unfold unsubscribe. simpl.
  assert (onceMap (on event f (this σ)) !! f = Some w) as Hentry' by done.
  destruct (removeListener_entry event f w _ Hentry') as [Hgone Hrm].
  assert (listeners event (removeListener event f (on event f (this σ)))
          = listeners event (this σ) ++ [f]) as Hkept.
  { rewrite Hrm, listeners_on, decide_True by done.
    rewrite remove_last_snoc_ne by done. by rewrite remove_last_notin. }
  split_and!; [done|done|].
  destruct (removeListener_no_entry event f _ Hgone) as [_ ->].
  rewrite Hkept. apply remove_last_snoc.
Qed.

(** X6. [removeListener] of a function that is neither registered for the
    event nor has an entry in the mapping changes nothing that can be
    observed. *)
Theorem removeListener_unregistered event f (e : AsyncEventEmitter) :
  onceMap e !! f = None ->
  f ∉ listeners event e ->
  (forall event', listeners event' (removeListener event f e) = listeners event' e)
  /\ onceMap (removeListener event f e) = onceMap e
  /\ limiter (removeListener event f e) = limiter e.
Proof.
  intros Hnone Hnot.
  destruct (removeListener_no_entry event f e Hnone) as [Hmap Hrm].
  split_and!; [|done|apply limiter_removeListener].
  intros event'. destruct (decide (event' = event)) as [->|Hne].
  - rewrite Hrm. by apply remove_last_notin.
  - by apply listeners_removeListener_ne.
Qed.

Lemma onceMap_wf_removeListener event f (e : AsyncEventEmitter) :
  onceMap_wf e -> onceMap_wf (removeListener event f e).
Proof.
  intros Hwf g w Hg.
  rewrite onceMap_removeListener in Hg.
  apply lookup_delete_Some in Hg as [_ Hg]. by apply Hwf.
Qed.

(** X7. The entries of the mapping keep their shape, a closure of [once]
    around the listener they are filed under, through every method that
    writes to the instance; a new instance has none. *)
Theorem onceMap_wf_preserved event (l n : value) f (once_ : bool) (σ : Realm) :
  onceMap_wf (this σ) ->
  (forall σ', once event l σ = Normal σ' -> onceMap_wf (this σ'))
  /\ onceMap_wf (removeListener event f (this σ))
  /\ (forall σ' handle,
        subscribe event f once_ σ = Normal (σ', handle) ->
        onceMap_wf (this σ') /\ onceMap_wf (this (handle σ')))
  /\ (forall σ', setConcurrency n σ = Normal σ' -> onceMap_wf (this σ'))
  /\ (forall σ', new n σ = Normal σ' -> onceMap (this σ') = ∅).
Proof.
  intros Hwf.
  assert (forall g σ', once event (VFunction g) σ = Normal σ' -> onceMap_wf (this σ'))
    as Honce.
  { intros g σ' Hg.
    destruct (once_elsewhere event g σ) as (σ1 & Hg' & _ & Hmap & _).
    rewrite Hg in Hg'. simplify_eq. intros h w. rewrite Hmap.
    intros [[<- <-]|[_ Hh]]%lookup_insert_Some; [by eexists _, _|by apply Hwf]. }
  split_and!.
  - intros σ'. destruct l as [| |b|x|s|xs|g|name msg]; try done. apply Honce.
  - by apply onceMap_wf_removeListener.
  - intros σ' handle. unfold subscribe. destruct once_.
    + destruct (once event (VFunction f) σ) as [σ1|err] eqn:Hσ1; [|done].
      intros [= <- <-]. split; [by apply (Honce f)|].
      apply onceMap_wf_removeListener. by apply (Honce f).
    + intros [= <- <-]. split; [done|]. by apply onceMap_wf_removeListener.
  - intros σ'. unfold setConcurrency.
    destruct (concurrency_guard n) as [x|]; [|by intros [= <-]].
    destruct (pLimit x) as [g|err]; [|done]. by intros [= <-].
  - intros σ'. unfold new, setConcurrency.
    destruct (concurrency_guard n) as [x|]; [|by intros [= <-]].
    destruct (pLimit x) as [g|err]; [|done]. by intros [= <-].
Qed.

(** X8. [setConcurrency] writes to [this.limiter] and to nothing else, and of
    two calls that install a gate the later one decides: the gate of the
    earlier call is dropped with whatever it was handed. *)
Theorem setConcurrency_only_limiter (m n : value) (σ : Realm) :
  match setConcurrency m σ with
  | Normal σ' =>
      _events (this σ') = _events (this σ)
      /\ onceMap (this σ') = onceMap (this σ)
      /\ fired σ' = fired σ
      /\ allocated σ' = allocated σ
      /\ world σ' = world σ
      /\ calls σ' = calls σ
      /\ (forall x g, n = VNumber x -> ge_one x = true -> pLimit x = Normal g ->
            setConcurrency n σ' = setConcurrency n σ)
  | Throw _ => True
  end.
Proof.
  unfold setConcurrency at 1.
  destruct (concurrency_guard m) as [y|].
  - destruct (pLimit y) as [g'|err]; [|done]. split_and!; try done.
    intros x g -> Hx Hg. unfold setConcurrency. simpl. by rewrite Hx, Hg.
  - split_and!; done.
Qed.

End Subscriptions.

(** ** What an emission leaves of the instance *)

Section Preserved.
Context {host : Host} {program : Listeners}.
Context (P : Realm -> Realm -> Prop).

Lemma call_preserves f args now (σ : Realm) :
  call_invariant P -> P σ (call f args now σ).1.
Proof.
  intros HP. revert σ. induction f as [id|k event g IH]; intros σ; simpl.
  - pose proof (inv_user P HP id args now σ) as Huser.
    destruct (user_call id args now σ) as [σ' c]. simpl in *.
    eapply (inv_trans P HP); [exact Huser|apply (inv_calls P HP)].
  - case_decide.
    + simpl. apply (inv_remove P HP).
    + eapply (inv_trans P HP); [apply (inv_remove P HP)|].
      eapply (inv_trans P HP); [apply (inv_fired P HP)|]. apply IH.
Qed.

Lemma _executeListener_preserves l args now (σ : Realm) :
  emission_invariant P -> P σ (_executeListener l args now σ).1.
Proof.
  intros [HP Hgate]. unfold _executeListener.
  destruct (limiter (this σ)) as [g|] eqn:Hg.
  - destruct (limit_enter g now) as [g' [start|]].
    + pose proof (call_preserves l args start
        (set_this (set_limiter (Some g') (this σ)) σ) HP) as Hcall.
      destruct (call l args start _) as [σ1 c]. simpl in *.
      eapply (inv_trans P HP); [by eapply Hgate|].
      eapply (inv_trans P HP); [exact Hcall|apply (inv_calls P HP)].
    + simpl. by eapply Hgate.
  - pose proof (call_preserves l args now σ HP) as Hcall.
    destruct (call l args now σ) as [σ1 c]. simpl in *.
    eapply (inv_trans P HP); [exact Hcall|apply (inv_calls P HP)].
Qed.

Lemma then_preserves {A B} now (promise : Promise A)
    (onFulfilled : A -> time -> M (Promise B)) (σ : Realm) :
  call_invariant P ->
  (forall a t σ, P σ (onFulfilled a t σ).1) ->
  P σ (then_ now promise onFulfilled σ).1.
Proof.
  intros HP Hk. unfold then_. destruct promise as [t [a|e]|]; simpl.
  - specialize (Hk a (observed now t) σ).
    by destruct (onFulfilled a (observed now t) σ).
  - apply (inv_refl P HP).
  - apply (inv_refl P HP).
Qed.

Lemma fold_preserves {A} (step : Realm * A -> fn -> Realm * A) ls acc :
  call_invariant P ->
  (forall acc l, P acc.1 (step acc l).1) ->
  P acc.1 (fold_left step ls acc).1.
Proof.
  intros HP Hstep. revert acc. induction ls as [|l ls IH]; intros acc; simpl.
  - apply (inv_refl P HP).
  - eapply (inv_trans P HP); [apply (Hstep acc l)|apply IH].
Qed.

Lemma emitParallel_preserves event args now (σ : Realm) :
  emission_invariant P -> P σ (emitParallel event args now σ).1.
Proof.
  intros HP. unfold emitParallel.
  pose proof (fold_preserves
    (fun '(σ, promises) listener =>
       let '(σ, p) := _executeListener listener args now σ in
       (σ, promises ++ [p]))
    (listeners event (this σ)) (σ, []) (inv_call P HP)) as Hfold.
  simpl in Hfold. destruct (fold_left _ _ _) as [σ1 ps]. simpl. apply Hfold.
  intros [σ0 ps0] l. simpl.
  pose proof (_executeListener_preserves l args now σ0 HP) as Hl.
  by destruct (_executeListener l args now σ0).
Qed.

Lemma emitSerial_preserves event args now (σ : Realm) :
  emission_invariant P -> P σ (emitSerial event args now σ).1.
Proof.
  intros HP. unfold emitSerial.
  apply (fold_preserves _ (listeners event (this σ)) (σ, Promise_resolved now [])
           (inv_call P HP)).
  intros [σ0 promise] l. simpl.
  apply then_preserves; [apply (inv_call P HP)|]. intros values t σ1.
  pose proof (_executeListener_preserves l args t σ1 HP) as Hl.
  destruct (_executeListener l args t σ1) as [σ2 p]. simpl in *.
  eapply (inv_trans P (inv_call P HP)); [exact Hl|].
  apply then_preserves; [apply (inv_call P HP)|]. intros value t' σ3. simpl.
  apply (inv_refl P (inv_call P HP)).
Qed.

Lemma _emitReduceRun_preserves event args inverse now (σ : Realm) :
  emission_invariant P -> P σ (_emitReduceRun event args inverse now σ).1.
Proof.
  intros HP. unfold _emitReduceRun.
  apply (fold_preserves _ _ (σ, Promise_resolved now (VArray args)) (inv_call P HP)).
  intros [σ0 promise] l. simpl.
  apply then_preserves; [apply (inv_call P HP)|]. intros prevArgs t σ1.
  by apply _executeListener_preserves.
Qed.

End Preserved.

Section Untouched.
Context {host : Host} {program : Listeners}.

Lemma filter_remove_last w l :
  ~ is_plain w -> filter is_plain (remove_last w l) = filter is_plain l.
Proof.
  intros Hw. destruct (decide (w ∈ l)) as [Hin|Hnot].
  - destruct (remove_last_split w l Hin) as (l1 & l2 & -> & _ & ->).
    rewrite !filter_app, filter_cons_False; done.
  - by rewrite remove_last_notin.
Qed.

Lemma nothing_added_invariant {detached : Detached} :
  emission_invariant nothing_added.
Proof.
  split; [split|]; unfold nothing_added.
  - done.
  - intros σ1 σ2 σ3 (Hls & Hmap & Hgate) (Hls' & Hmap' & Hgate'). split_and!.
    + intros event. etrans; [apply Hls'|apply Hls].
    + etrans; [apply Hmap'|apply Hmap].
    + by rewrite Hgate'.
  - intros id args now σ. by rewrite user_call_this.
  - done.
  - done.
  - intros k event f σ. simpl.
    rewrite onceMap_removeListener, limiter_removeListener.
    split_and!; [|apply delete_subseteq|done].
    intros event'. destruct (decide (event' = event)) as [->|Hne].
    + rewrite listeners_removeListener. apply remove_last_sublist.
    + by rewrite listeners_removeListener_ne.
  - intros g g' σ Hg. simpl. split_and!; [done|done|].
    rewrite Hg. split; by eexists.
Qed.

Lemma plain_kept_invariant {detached : Detached} : emission_invariant plain_kept.
Proof.
  split; [split|]; unfold plain_kept.
  - done.
  - intros σ1 σ2 σ3 H12 H23 Hwf.
    destruct (H12 Hwf) as [Hwf2 Heq2]. destruct (H23 Hwf2) as [Hwf3 Heq3].
    split; [done|]. intros event. by rewrite Heq3.
  - intros id args now σ. by rewrite user_call_this.
  - done.
  - done.
  - intros k event f σ Hwf. simpl. split; [by apply onceMap_wf_removeListener|].
    intros event'. destruct (decide (event' = event)) as [->|Hne].
    + unfold removeListener.
      destruct (onceMap (this σ) !! OnceFn k event f) as [w|] eqn:Hw;
        rewrite listeners_EventEmitter_removeListener.
      * destruct (Hwf _ _ Hw) as (k' & event' & ->).
        exact (filter_remove_last (OnceFn k' event' (OnceFn k event f))
                 (listeners event (this σ)) (fun H => H)).
      * exact (filter_remove_last (OnceFn k event f)
                 (listeners event (this σ)) (fun H => H)).
    + by rewrite listeners_removeListener_ne.
  - done.
Qed.

Lemma fired_invariant {keeps : KeepsFired} :
  emission_invariant (fun σ σ' => fired σ ⊆ fired σ').
Proof.
  split; [split|]; simpl.
  - done.
  - intros σ1 σ2 σ3 ? ?. by etrans.
  - apply user_call_fired.
  - done.
  - intros k σ. set_solver.
  - done.
  - done.
Qed.

Lemma limiter_invariant {detached : Detached} :
  call_invariant (fun σ σ' => limiter (this σ') = limiter (this σ)).
Proof.
  split.
  - done.
  - intros σ1 σ2 σ3 H12 H23. by rewrite H23.
  - intros id args now σ. by rewrite user_call_this.
  - done.
  - done.
  - intros k event f σ. simpl. apply limiter_removeListener.
Qed.

(** X9. With a program that does not call back into the instance, an emission
    registers nothing: after it every event has a sublist of the
    listeners it had, the mapping has no new entry, and there is a gate
    exactly if there was one. *)
Theorem emission_never_registers {detached : Detached} event args now (σ : Realm) :
  nothing_added σ (emitParallel event args now σ).1
  /\ nothing_added σ (emitSerial event args now σ).1
  /\ nothing_added σ (emitReduce event args now σ).1
  /\ nothing_added σ (emitReduceRight event args now σ).1.
Proof.
  pose proof nothing_added_invariant as HP. split_and!.
  - by apply emitParallel_preserves.
  - by apply emitSerial_preserves.
  - by apply (_emitReduceRun_preserves _ event args false now σ HP).
  - by apply (_emitReduceRun_preserves _ event args true now σ HP).
Qed.

(** X10. With a program that does not call back into the instance, an
    emission unregisters closures of [once] only: when the mapping holds
    closures of [once] only, as [once] fills it, the functions of the
    program registered for any event are after the emission what they
    were before it. *)
Theorem emission_keeps_plain_listeners {detached : Detached}
    event args now (σ : Realm) :
  onceMap_wf (this σ) ->
  forall event',
    let plain (σ' : Realm) := filter is_plain (listeners event' (this σ')) in
    plain (emitParallel event args now σ).1 = plain σ
    /\ plain (emitSerial event args now σ).1 = plain σ
    /\ plain (emitReduce event args now σ).1 = plain σ
    /\ plain (emitReduceRight event args now σ).1 = plain σ.
Proof.
  intros Hwf event' plain. pose proof plain_kept_invariant as HP. split_and!.
  - by apply (emitParallel_preserves plain_kept event args now σ HP).
  - by apply (emitSerial_preserves plain_kept event args now σ HP).
  - by apply (_emitReduceRun_preserves plain_kept event args false now σ HP).
  - by apply (_emitReduceRun_preserves plain_kept event args true now σ HP).
Qed.

(** X11. With a program that cannot reach the flags, an emission never clears
    the flag of a closure of [once]. *)
Theorem emission_keeps_fired {keeps : KeepsFired} event args now (σ : Realm) :
  fired σ ⊆ fired (emitParallel event args now σ).1
  /\ fired σ ⊆ fired (emitSerial event args now σ).1
  /\ fired σ ⊆ fired (emitReduce event args now σ).1
  /\ fired σ ⊆ fired (emitReduceRight event args now σ).1.
Proof.
  pose proof fired_invariant as HP. split_and!.
  - by apply (emitParallel_preserves _ event args now σ HP).
  - by apply (emitSerial_preserves _ event args now σ HP).
  - by apply (_emitReduceRun_preserves _ event args false now σ HP).
  - by apply (_emitReduceRun_preserves _ event args true now σ HP).
Qed.

(** X12. A closure of [once] runs its listener once: its first call leaves
    the flag set, and in every later realm, where the flag still is set,
    a call of it does nothing but remove the closure from the event once
    more and return [undefined]. *)
Theorem once_closure_runs_listener_once {keeps : KeepsFired}
    k event f args now (σ : Realm) :
  k ∈ fired (call (OnceFn k event f) args now σ).1
  /\ forall args' now' (σ' : Realm),
       fired (call (OnceFn k event f) args now σ).1 ⊆ fired σ' ->
       call (OnceFn k event f) args' now' σ'
       = (set_this (removeListener event (OnceFn k event f) (this σ')) σ',
          Normal (RValue VUndefined)).
Proof.
  assert (k ∈ fired (call (OnceFn k event f) args now σ).1) as Hset.
  { simpl. case_decide as Hk; [done|].
    pose proof (call_preserves _ f args now
      (set_fired k (set_this (removeListener event (OnceFn k event f) (this σ)) σ))
      (inv_call _ fired_invariant)) as Hmono.
    simpl in Hmono. set_solver. }
  split; [done|]. intros args' now' σ' Hsub.
  simpl. rewrite decide_True; [done|]. simpl. set_solver.
Qed.

End Untouched.


(** ** The gate and the instants of an emission *)

Section HandOver.
Context {host : Host} {program : Listeners}.

Lemma call_limiter {detached : Detached} f args now (σ : Realm) :
  limiter (this (call f args now σ).1) = limiter (this σ).
Proof. apply (call_preserves _ f args now σ limiter_invariant). Qed.

(** One call of [_executeListener] on an instance with a gate: the gate
    is handed the thunk, and the listener is invoked if and when the gate
    decides. *)
Lemma _executeListener_gate {detached : Detached} l args now g (σ : Realm) :
  limiter (this σ) = Some g ->
  let r := _executeListener l args now σ in
  limiter (this r.1) = Some (limit_enter g now).1
  /\ match (limit_enter g now).2 with
     | Some start => calls r.1 = calls σ ++ [mkInvocation l args start r.2]
     | None => calls r.1 = calls σ /\ r.2 = Forever
     end.
Proof.
  intros Hg. unfold _executeListener. rewrite Hg.
  destruct (limit_enter g now) as [g' [start|]]; simpl; [|done].
  pose proof (call_limiter l args start
    (set_this (set_limiter (Some g') (this σ)) σ)) as Hlim.
  pose proof (call_calls l args start
    (set_this (set_limiter (Some g') (this σ)) σ)) as Hcalls.
  destruct (call l args start _) as [σ1 c]. simpl in *.
  by rewrite Hlim, Hcalls.
Qed.

(** ... and on an instance without a gate: the listener is invoked on
    the spot. *)
Lemma _executeListener_no_gate {detached : Detached} l args now (σ : Realm) :
  limiter (this σ) = None ->
  let r := _executeListener l args now σ in
  limiter (this r.1) = None
  /\ calls r.1 = calls σ ++ [mkInvocation l args now r.2].
Proof.
  intros Hg. unfold _executeListener. rewrite Hg.
  pose proof (call_limiter l args now σ) as Hlim.
  pose proof (call_calls l args now σ) as Hcalls.
  destruct (call l args now σ) as [σ1 c]. simpl in *.
  by rewrite Hlim, Hcalls, Hg.
Qed.

Lemma emitParallel_loop_gate {detached : Detached} args now ls :
  forall (σ : Realm) ps0 g,
    limiter (this σ) = Some g ->
    let r :=
      fold_left
        (fun '(σ, promises) listener =>
           let '(σ, p) := _executeListener listener args now σ in
           (σ, promises ++ [p]))
        ls (σ, ps0) in
    limiter (this r.1) = Some (handed_over now ls g)
    /\ exists recs,
         calls r.1 = calls σ ++ recs
         /\ (fun i => (inv_listener i, inv_start i)) <$> recs = admitted now ls g
         /\ Forall (fun i => inv_args i = args) recs.
Proof.
  induction ls as [|l ls IH]; intros σ ps0 g Hg; simpl.
  - split; [done|]. exists []. by rewrite app_nil_r.
  - destruct (_executeListener_gate l args now g σ Hg) as [Hg' Hcalls].
    destruct (_executeListener l args now σ) as [σ1 p]. simpl in *.
    destruct (IH σ1 (ps0 ++ [p]) _ Hg') as (Hlim & recs & Hrecs & Hstarts & Hargs).
    split; [done|].
    destruct (limit_enter g now).2 as [start|]; simpl.
    + exists (mkInvocation l args start p :: recs). split_and!.
      * by rewrite Hrecs, Hcalls, <- app_assoc.
      * rewrite fmap_cons. simpl. f_equal. exact Hstarts.
      * by constructor.
    + destruct Hcalls as [Hcalls _]. exists recs. by rewrite Hrecs, Hcalls.
Qed.

Lemma emitParallel_loop_no_gate {detached : Detached} args now ls :
  forall (σ : Realm) ps0,
    limiter (this σ) = None ->
    let r :=
      fold_left
        (fun '(σ, promises) listener =>
           let '(σ, p) := _executeListener listener args now σ in
           (σ, promises ++ [p]))
        ls (σ, ps0) in
    limiter (this r.1) = None
    /\ exists recs,
         calls r.1 = calls σ ++ recs
         /\ inv_listener <$> recs = ls
         /\ Forall (fun i => inv_start i = now /\ inv_args i = args) recs
         /\ r.2 = ps0 ++ (inv_promise <$> recs).
Proof.
  induction ls as [|l ls IH]; intros σ ps0 Hg; simpl.
  - split; [done|]. exists []. by rewrite !app_nil_r.
  - destruct (_executeListener_no_gate l args now σ Hg) as [Hg' Hcalls].
    destruct (_executeListener l args now σ) as [σ1 p]. simpl in *.
    destruct (IH σ1 (ps0 ++ [p]) Hg') as (Hlim & recs & Hrecs & Hls & Hall & Hps).
    split; [done|].
    exists (mkInvocation l args now p :: recs). split_and!.
    + by rewrite Hrecs, Hcalls, <- app_assoc.
    + rewrite fmap_cons. simpl. by rewrite Hls.
    + by constructor.
    + rewrite Hps, fmap_cons. simpl. by rewrite <- app_assoc.
Qed.

(** X15. On an instance with a gate [emitParallel] hands the gate one
    thunk for every listener of the event, in registration order and all
    at the instant of the call, whatever the gate decides. The
    invocations made are those of the listeners the gate starts, in
    registration order and at the instants the gate decides: each is a
    call of its listener with the [args] of the call, made in the realm
    the call before it left, and its promise the promise of what that
    call returned or threw. *)
Theorem emitParallel_hands_every_listener_to_the_gate {detached : Detached}
    event args now g (σ : Realm) :
  limiter (this σ) = Some g ->
  let r := emitParallel event args now σ in
  limiter (this r.1) = Some (handed_over now (listeners event (this σ)) g)
  /\ exists recs,
       calls r.1 = calls σ ++ recs
       /\ calls_in_turn σ recs r.1
       /\ (fun i => (inv_listener i, inv_start i)) <$> recs
          = admitted now (listeners event (this σ)) g
       /\ Forall (fun i => inv_args i = args) recs.
Proof.
  intros Hg r.
  assert (limiter (this r.1) = Some (handed_over now (listeners event (this σ)) g)
          /\ exists recs,
               calls r.1 = calls σ ++ recs
               /\ (fun i => (inv_listener i, inv_start i)) <$> recs
                  = admitted now (listeners event (this σ)) g
               /\ Forall (fun i => inv_args i = args) recs)
    as (Hlim & recs & Hcalls & Hstarts & Hargs).
  { unfold r, emitParallel.
    pose proof (emitParallel_loop_gate args now (listeners event (this σ)) σ [] g Hg)
      as Hloop.
    by destruct (fold_left _ _ _) as [σ1 ps]. }
  split; [done|]. exists recs. split_and!; [done| |done|done].
  by apply emitParallel_in_turn.
Qed.

(** X16. On an instance without a gate [emitParallel] invokes every listener
    there is at the instant of the call, before it waits for any promise,
    and hands the promises of all of them to [Promise.all]; each
    invocation is a call of its listener, made in the realm the call
    before it left, and its promise the promise of what that call
    returned or threw. *)
Theorem emitParallel_without_gate_starts_all_at_once {detached : Detached}
    event args now (σ : Realm) :
  limiter (this σ) = None ->
  let r := emitParallel event args now σ in
  limiter (this r.1) = None
  /\ exists recs,
       calls r.1 = calls σ ++ recs
       /\ calls_in_turn σ recs r.1
       /\ inv_listener <$> recs = listeners event (this σ)
       /\ Forall (fun i => inv_start i = now /\ inv_args i = args) recs
       /\ r.2 = Promise_all now (inv_promise <$> recs).
Proof.
  intros Hg r.
  assert (limiter (this r.1) = None
          /\ exists recs,
               calls r.1 = calls σ ++ recs
               /\ inv_listener <$> recs = listeners event (this σ)
               /\ Forall (fun i => inv_start i = now /\ inv_args i = args) recs
               /\ r.2 = Promise_all now (inv_promise <$> recs))
    as (Hlim & recs & Hcalls & Hls & Hall & Hres).
  { unfold r, emitParallel.
    pose proof (emitParallel_loop_no_gate args now (listeners event (this σ)) σ [] Hg)
      as Hloop.
    destruct (fold_left _ _ _) as [σ1 ps]. simpl in *.
    destruct Hloop as (Hlim & recs & Hcalls & Hls & Hall & ->).
    split; [done|]. by exists recs. }
  split; [done|]. exists recs. split_and!; [done| |done|done|done].
  by apply emitParallel_in_turn.
Qed.

End HandOver.

Section Eager.
Context {host : Host} {program : Listeners} {detached : Detached}.
Context {S : Type} (args_of : S -> list value) (push : S -> value -> S).




End Eager.

Section Instants.
Context {host : Host} {program : Listeners}.

(** A chain that settles does so when the last of its invocations has
    settled. *)
Lemma run_settled_last {S} (args_of : S -> list value) (push : S -> value -> S)
    R T s ls recs p :
  chain_run args_of push R T s ls recs p ->
  forall T' x, p = Settles T' x -> settled_last T (inv_promise <$> recs) T'.
Proof.
  unfold settled_last.
  induction 1 as [T s|T s l ls HB|T s l ls start HR|T s l ls start t e HR
                 |T s l ls start t v recs p HR Hrun IH]; intros T' x Hp;
    try done.
  - simplify_eq. split_and!; [done|constructor|by left].
  - simplify_eq. pose proof (now_le_observed T t). pose proof (settled_le_observed T t).
    split_and!; [done| |].
    + repeat constructor. by eexists _, _.
    + destruct (decide (observed T t = T)) as [Heq|Hne]; [by left|].
      right. exists (Rejected e). rewrite fmap_cons. simpl.
      assert (observed T t = t) as -> by (unfold observed in *; lia).
      by left.
  - destruct (IH T' x Hp) as (Hle & Hall & Hlast).
    pose proof (now_le_observed T t). pose proof (settled_le_observed T t).
    rewrite fmap_cons. simpl. split_and!; [lia| |].
    + constructor; [|done]. eexists _, _. split; [done|lia].
    + destruct Hlast as [->|[x' Hin]].
      * destruct (decide (observed T t = T)) as [Heq|Hne]; [by left|].
        right. exists (Fulfilled v).
        assert (observed T t = t) as -> by (unfold observed in *; lia).
        by left.
      * right. exists x'. by right.
Qed.

(** X18. [emitSerial], [emitReduce] and [emitReduceRight] settle when the last
    of their invocations has settled: not before the call, not before the
    promise of any invocation made, and not later than the last of
    these; each invocation is a call of its listener and its promise the
    promise of what that call returned or threw. *)
Theorem emit_settles_with_its_last_listener event args now (σ : Realm) :
  let settles {A} (r : Realm * Promise A) :=
    exists recs,
      calls r.1 = calls σ ++ recs
      /\ calls_in_turn σ recs r.1
      /\ forall T x, r.2 = Settles T x -> settled_last now (inv_promise <$> recs) T in
  settles (emitSerial event args now σ)
  /\ settles (emitReduce event args now σ)
  /\ settles (emitReduceRight event args now σ).
Proof.
  intros settles.
  assert (forall inverse, settles value (_emitReduceRun event args inverse now σ))
    as Hboth.
  { intros inverse.
    destruct (_emitReduceRun_run (fun _ _ => True) event args inverse now σ
                starts_within_True) as (recs & Hcalls & Hrun).
    exists recs. split; [done|]. split; [by apply _emitReduceRun_in_turn|].
    by apply (run_settled_last _ _ _ _ _ _ _ _ Hrun). }
  split_and!; [|apply (Hboth false)|apply (Hboth true)].
  destruct (emitSerial_run (fun _ _ => True) event args now σ starts_within_True)
    as (recs & Hcalls & Hrun).
  exists recs. split; [done|]. split; [by apply emitSerial_in_turn|].
  by apply (run_settled_last _ _ _ _ _ _ _ _ Hrun).
Qed.

(** X19. With a gate that starts nothing early, [emitReduce] and
    [emitReduceRight] run one listener at a time: the first is not
    started before the call, and each later one not before the promise of
    the one before it has resolved; each invocation is a call of its
    listener and its promise the promise of what that call returned or
    threw. *)
Theorem emitReduce_one_at_a_time {causal : CausalGate} event args now (σ : Realm) :
  let one_at_a_time (r : Realm * Promise value) :=
    exists recs,
      calls r.1 = calls σ ++ recs
      /\ calls_in_turn σ recs r.1
      /\ (forall i, recs !! 0 = Some i -> now <= inv_start i)
      /\ (forall k i j, recs !! k = Some i -> recs !! (S k) = Some j ->
            exists t v, inv_promise i = Settles t (Fulfilled v) /\ t <= inv_start j) in
  one_at_a_time (emitReduce event args now σ)
  /\ one_at_a_time (emitReduceRight event args now σ).
Proof.
  intros one_at_a_time.
  assert (forall inverse, one_at_a_time (_emitReduceRun event args inverse now σ))
    as Hboth.
  { intros inverse.
    destruct (_emitReduceRun_run le event args inverse now σ starts_within_le)
      as (recs & Hcalls & Hrun).
    exists recs. split_and!; [done|by apply _emitReduceRun_in_turn| |].
    - intros i. by apply (run_first_start _ _ _ _ _ _ _ _ Hrun).
    - intros k i j. by apply (run_one_at_a_time _ _ _ _ _ _ _ _ _ _ Hrun). }
  split; [apply (Hboth false)|apply (Hboth true)].
Qed.


End Instants.

Section ParallelInstants.
Context {host : Host} {program : Listeners}.

(** [Promise.all] is fulfilled by the reaction that runs last. *)
Lemma Promise_all_fulfilled_at now ps vs T :
  Promise_all now ps = Settles T (Fulfilled vs) -> settled_last now ps T.
Proof.
  intros HT.
  assert (Forall2 fulfilled_with ps vs) as Hps
    by (apply (Promise_all_fulfilled_inv now); by exists T).
  pose proof (elem_of_job_queue now ps) as Hin.
  pose proof (job_queue_sorted now ps) as Hsorted.
  assert (Forall is_fulfilment (job_queue now ps)) as Hful.
  { apply Forall_forall. intros r (t & Hp & _)%Hin.
    destruct (Forall2_lookup_l _ _ _ _ _ Hps Hp) as (v & _ & t' & Hv).
    exists v. congruence. }
  assert (length (job_queue now ps) = length ps) as Hn.
  { unfold job_queue. rewrite merge_sort_Permutation.
    apply length_reactions_from_settled.
    apply Forall_forall. intros p Hp%list_elem_of_lookup. destruct Hp as [i Hp].
    destruct (Forall2_lookup_l _ _ _ _ _ Hps Hp) as (v & _ & t' & ->). done. }
  rewrite Promise_all_queue in HT. unfold settled_last.
  destruct (job_queue now ps) as [|r0 queue _] using rev_ind.
  - simpl in *. assert (ps = []) as -> by (apply nil_length_inv; lia).
    simpl in HT. simplify_eq. split_and!; [done|constructor|by left].
  - rewrite length_app in Hn. simpl in Hn.
    apply Forall_app in Hful as [Hful [[v Hlast] _]%Forall_cons].
    rewrite decide_False in HT by lia.
    rewrite fold_left_app in HT. simpl in HT.
    set (st0 := mkAll (replicate (length ps) VUndefined) (length ps) Forever) in *.
    destruct (all_react_fulfilments queue st0 Hful) as (Hres & Hrem & Hval);
      [simpl; lia|done|].
    set (st1 := fold_left all_react queue st0) in *.
    unfold all_react, all_countdown in HT. rewrite Hlast in HT. simpl in HT.
    rewrite Hres, Hrem in HT. simpl in HT.
    rewrite decide_True in HT by lia. simpl in HT.
    injection HT as HT _. subst T.
    destruct (proj1 (Hin r0)) as (t0 & Hp0 & Ht0);
      [apply elem_of_app; right; by apply list_elem_of_singleton|].
    pose proof (now_le_observed now t0). split_and!.
    + lia.
    + apply Forall_forall. intros p Hp%list_elem_of_lookup. destruct Hp as [i Hp].
      destruct (Forall2_lookup_l _ _ _ _ _ Hps Hp) as (w & _ & t & ->).
      exists t, (Fulfilled w). split; [done|].
      assert (reaction_of now i t (Fulfilled w) ∈ queue ++ [r0]) as Hr
        by (apply Hin; by exists t).
      pose proof (settled_le_observed now t).
      apply elem_of_app in Hr as [Hr|Hr%list_elem_of_singleton].
      * assert (reaction_le (reaction_of now i t (Fulfilled w)) r0) as Hle.
        { eapply (StronglySorted_app_1_elem_of _ _ _ _ _ Hsorted); [done|].
          by apply list_elem_of_singleton. }
        unfold reaction_le in Hle. simpl in Hle. lia.
      * rewrite <- Hr. simpl. lia.
    + destruct (decide (r_at r0 = now)) as [Heq|Hne]; [by left|].
      right. exists (r_settlement r0).
      assert (r_at r0 = t0) as -> by (unfold observed in *; lia).
      by eapply list_elem_of_lookup_2.
Qed.

(** X17. [emitParallel] resolves when the last of its listeners has resolved:
    not before the call, not before the promise of any invocation, and
    not later than the last of these; each invocation is a call of its
    listener and its promise the promise of what that call returned or
    threw. *)
Theorem emitParallel_resolves_with_its_last_listener event args now (σ : Realm) :
  let r := emitParallel event args now σ in
  exists recs,
    calls r.1 = calls σ ++ recs
    /\ calls_in_turn σ recs r.1
    /\ forall T vs,
         r.2 = Settles T (Fulfilled vs) ->
         inv_listener <$> recs = listeners event (this σ)
         /\ settled_last now (inv_promise <$> recs) T.
Proof.
  intros r.
  destruct (emitParallel_run (fun _ _ => True) event args now σ starts_within_True)
    as (recs & ps & Hcalls & Hrun & Hres).
  exists recs. split; [done|]. split; [by apply emitParallel_in_turn|].
  intros T vs HT. unfold r in HT. rewrite Hres in HT.
  assert (Forall2 fulfilled_with ps vs) as Hful
    by (apply (Promise_all_fulfilled_inv now); by exists T).
  assert (length recs = length (listeners event (this σ))) as Hlen.
  { eapply started_all_settled; [done|].
    apply Forall_forall. intros p Hp%list_elem_of_lookup. destruct Hp as [n Hp].
    destruct (Forall2_lookup_l _ _ _ _ _ Hful Hp) as (v & _ & t & ->). done. }
  destruct (started_all _ _ _ _ _ _ Hrun Hlen) as [Hls ->].
  split; [exact Hls|]. by apply (Promise_all_fulfilled_at now _ vs).
Qed.

End ParallelInstants.

(** ** The closure of [once] and the predicates *)

Section Closure.
Context {host : Host} {program : Listeners}.

(** X13. The first call of the closure [once] made for a function [f] of the
    program, with a program that does not call back into the instance:
    [f] is called with the arguments of the closure and what it returns
    or throws is what the closure returns or throws; the flag is set; the
    closure is taken out of the listeners of its event, other events keep
    theirs, and the mapping is left as it was, the entry of [f]
    included. *)
Theorem once_closure_first_call {detached : Detached}
    k event id args now (σ : Realm) :
  k ∉ fired σ ->
  onceMap (this σ) !! OnceFn k event (Fn id) = None ->
  let r := call (OnceFn k event (Fn id)) args now σ in
  let σ0 :=
    set_fired k
      (set_this (EventEmitter_removeListener event (OnceFn k event (Fn id)) (this σ)) σ) in
  r.2 = (user_call id args now σ0).2
  /\ listeners event (this r.1)
     = remove_last (OnceFn k event (Fn id)) (listeners event (this σ))
  /\ (forall event', event' <> event ->
        listeners event' (this r.1) = listeners event' (this σ))
  /\ onceMap (this r.1) = onceMap (this σ)
  /\ limiter (this r.1) = limiter (this σ)
  /\ calls r.1 = calls σ.
Proof.
  intros Hfresh Hnone r σ0.
  assert (r = call (Fn id) args now σ0) as Hr.
  { unfold r. simpl. unfold removeListener. rewrite Hnone. simpl.
    by rewrite decide_False. }
  assert (this r.1 = this σ0) as Hthis.
  { rewrite Hr. simpl. pose proof (user_call_this id args now σ0) as Hu.
    by destruct (user_call id args now σ0). }
  split_and!.
  - rewrite Hr. simpl. by destruct (user_call id args now σ0).
  - rewrite Hthis. apply listeners_EventEmitter_removeListener.
  - intros event' Hne. rewrite Hthis.
    by apply listeners_EventEmitter_removeListener_ne.
  - rewrite Hthis. apply onceMap_EventEmitter_removeListener.
  - rewrite Hthis. apply limiter_EventEmitter_removeListener.
  - unfold r. apply call_calls.
Qed.

(** X14. [once] throws exactly for a listener that is not a function, a
    [TypeError], and otherwise registers one more listener for the event
    and allocates one closure. *)
Theorem once_throws_unless_function event (l : value) (σ : Realm) :
  match typeof l with
  | TFunction =>
      exists σ',
        once event l σ = Normal σ'
        /\ length (listeners event (this σ')) = S (length (listeners event (this σ)))
        /\ allocated σ' = S (allocated σ)
  | _ => once event l σ = Throw (TypeError "listener must be a function")
  end.
Proof.
  destruct l as [| |b|x|s|xs|f|name msg]; try done. simpl.
  destruct (once_registers event f σ) as (σ' & Honce & Hls & _ & Hal).
  exists σ'. split_and!; [done| |done].
  rewrite Hls, length_app. simpl. lia.
Qed.

End Closure.

Section Predicates.

Lemma prototype_chain_extends p :
  AsyncEventEmitterPrototype ∈ prototype_chain p ->
  EventEmitterPrototype ∈ prototype_chain p.
Proof.
  induction p as [| | |id parent IH]; simpl.
  - by intros [?|?%elem_of_nil]%elem_of_cons.
  - intros _. by left.
  - intros _. right. by left.
  - intros [?|Hin]%elem_of_cons; [done|]. right. by apply IH.
Qed.

(** X21. Whatever [isAsyncEventEmitter] accepts, [isEventEmitter] accepts:
    instances of [AsyncEventEmitter] and of the classes that extend it.
    The converse fails for an instance of [EventEmitter] itself, and a
    value without a prototype chain is neither. *)
Theorem isAsyncEventEmitter_isEventEmitter (obj : option prototype) :
  isAsyncEventEmitter obj = true ->
  isEventEmitter obj = true
  /\ isEventEmitter (Some EventEmitterPrototype) = true
  /\ isAsyncEventEmitter (Some EventEmitterPrototype) = false
  /\ isEventEmitter None = false.
Proof.
  intros Hasync. split_and!; [|done|done|done].
  destruct obj as [p|]; [|done]. unfold isAsyncEventEmitter, isEventEmitter in *.
  simpl in *. apply bool_decide_eq_true. apply bool_decide_eq_true in Hasync.
  by apply prototype_chain_extends.
Qed.

End Predicates.


(** ** The further properties on the listeners of the suite *)

(** The listeners of the suite leave the realm as they find it. *)
Lemma suite_detached : Detached (program := suite_listeners).
Proof.
  intros id args now σ. unfold user_call, suite_listeners, suite_call.
  do 22 (destruct id as [|id]; [done|]). done.
Qed.

Lemma suite_keeps_fired : KeepsFired (program := suite_listeners).
Proof.
  intros id args now σ. unfold user_call, suite_listeners, suite_call.
  do 22 (destruct id as [|id]; [done|]). done.
Qed.

Lemma once_foo_wf : onceMap_wf (this once_foo).
Proof.
  intros f w. unfold once_foo, emitter. simpl.
  intros [[<- <-]|[_ Hw]]%lookup_insert_Some; [by eexists _, _|].
  by rewrite lookup_empty in Hw.
Qed.

Lemma on_all_onceMap event ids (σ : Realm) :
  onceMap (this (on_all event ids σ)) = onceMap (this σ).
Proof.
  revert σ. unfold on_all. induction ids as [|id ids IH]; intros σ; [done|].
  simpl. by rewrite IH.
Qed.

(** X4: [subscribe("foo", f, true)] on a new instance, then the handle:
    no listener is left. *)
Lemma subscribe_round_trip_on_suite :
  onceMap (this emitter) !! Fn 0 = None
  /\ exists σ1 handle,
       subscribe "foo" (Fn 0) true emitter = Normal (σ1, handle)
       /\ listeners "foo" (this (handle σ1)) = [].
Proof.
  split; [reflexivity|].
  destruct (subscribe_then_unsubscribe "foo" (Fn 0) true emitter eq_refl)
    as (σ1 & handle & Hsub & _ & Hls & _).
  exists σ1, handle. split; [exact Hsub|]. by rewrite Hls.
Defined.

(** X5: after the closure of [once("foo", f)] has fired, the handle of
    [subscribe("foo", f)] leaves [f] registered. *)
Lemma subscribe_after_firing_on_suite :
  let σ := (emitParallel "foo" [VString "bar"] 0 once_foo).1 in
  onceMap (this σ) !! Fn 0 = Some (OnceFn 0 "foo" (Fn 0))
  /\ OnceFn 0 "foo" (Fn 0) <> Fn 0
  /\ (OnceFn 0 "foo" (Fn 0) ∉ listeners "foo" (this σ))
  /\ exists σ1 handle,
       subscribe "foo" (Fn 0) false σ = Normal (σ1, handle)
       /\ listeners "foo" (this (handle σ1)) = [Fn 0].
Proof.
  intros σ.
  assert (onceMap (this σ) !! Fn 0 = Some (OnceFn 0 "foo" (Fn 0))) as Hentry
    by (vm_compute; reflexivity).
  assert (OnceFn 0 "foo" (Fn 0) <> Fn 0) as Hne by discriminate.
  assert (listeners "foo" (this σ) = []) as Hls by (vm_compute; reflexivity).
  assert (OnceFn 0 "foo" (Fn 0) ∉ listeners "foo" (this σ)) as Hnot
    by (rewrite Hls; apply not_elem_of_nil).
  split_and!; [exact Hentry|exact Hne|exact Hnot|].
  destruct (subscribe_handle_misses_after_stale_entry "foo" (Fn 0) _ σ Hentry Hne Hnot)
    as (σ1 & handle & Hsub & Hkept & _).
  exists σ1, handle. split; [exact Hsub|]. by rewrite Hkept, Hls.
Defined.

(** X6: [removeListener] of a function that was never registered. *)
Lemma removeListener_unregistered_on_suite :
  let e := this (on_all "foo" [1; 5] emitter) in
  onceMap e !! Fn 0 = None
  /\ (Fn 0 ∉ listeners "foo" e)
  /\ listeners "foo" (removeListener "foo" (Fn 0) e) = [Fn 1; Fn 5].
Proof.
  intros e.
  assert (onceMap e !! Fn 0 = None) as Hnone by (vm_compute; reflexivity).
  assert (listeners "foo" e = [Fn 1; Fn 5]) as Hls by (vm_compute; reflexivity).
  assert (Fn 0 ∉ listeners "foo" e) as Hnot.
  { rewrite Hls. intros [?|[?|?%elem_of_nil]%elem_of_cons]%elem_of_cons; done. }
  split_and!; [exact Hnone|exact Hnot|].
  destruct (removeListener_unregistered "foo" (Fn 0) e Hnone Hnot) as (Hsame & _).
  by rewrite Hsame.
Defined.

(** X7: the entry [once("foo", f)] made, and the mapping after the entry
    was used. *)
Lemma onceMap_wf_on_suite :
  onceMap_wf (this once_foo)
  /\ onceMap_wf (removeListener "foo" (Fn 0) (this once_foo)).
Proof.
  split; [exact once_foo_wf|].
  destruct (onceMap_wf_preserved "foo" VUndefined VUndefined (Fn 0) false once_foo
              once_foo_wf) as (_ & Hrm & _).
  exact Hrm.
Defined.

(** X9: an emission to a closure of [once] and two listeners of the
    suite. *)
Lemma emission_never_registers_on_suite :
  let σ := on_all "foo" [1; 5] once_foo in
  Detached
  /\ nothing_added σ (emitParallel "foo" [VString "bar"] 0 σ).1
  /\ nothing_added σ (emitSerial "foo" [VString "bar"] 0 σ).1.
Proof.
  intros σ. split; [exact suite_detached|].
  destruct (emission_never_registers (detached := suite_detached)
              "foo" [VString "bar"] 0 σ) as (Hparallel & Hserial & _).
  by split.
Defined.

(** X10: the two listeners of the suite stay, the closure of [once]
    goes. *)
Lemma emission_keeps_plain_listeners_on_suite :
  let σ := on_all "foo" [1; 5] once_foo in
  Detached
  /\ onceMap_wf (this σ)
  /\ filter is_plain (listeners "foo" (this (emitSerial "foo" [VString "bar"] 0 σ).1))
     = [Fn 1; Fn 5]
  /\ listeners "foo" (this (emitSerial "foo" [VString "bar"] 0 σ).1) = [Fn 1; Fn 5].
Proof.
  intros σ.
  assert (onceMap_wf (this σ)) as Hwf.
  { intros f w. unfold σ. rewrite on_all_onceMap. apply once_foo_wf. }
  split_and!; [exact suite_detached|exact Hwf| |vm_compute; reflexivity].
  destruct (emission_keeps_plain_listeners (detached := suite_detached)
              "foo" [VString "bar"] 0 σ Hwf "foo") as (_ & Hserial & _).
  rewrite Hserial. vm_compute. reflexivity.
Defined.

(** X11: after the closure of [once("foo", f)] has fired, a listener of
    the suite and a second closure, made by [once("foo", g)], are
    registered; the next emission invokes both, sets the flag of the
    second closure and leaves the flag of the first set. *)
Lemma emission_keeps_fired_on_suite :
  let σ0 := (emitParallel "foo" [VString "bar"] 0 once_foo).1 in
  let σ := returns (once "foo" (VFunction (Fn 1)) (on_all "foo" [5] σ0)) in
  let r := emitSerial "foo" [VString "bar"] 1 σ in
  KeepsFired
  /\ listeners "foo" (this σ) = [Fn 5; OnceFn 1 "foo" (Fn 1)]
  /\ inv_listener <$> calls r.1
     = [OnceFn 0 "foo" (Fn 0); Fn 5; OnceFn 1 "foo" (Fn 1)]
  /\ fired σ = {[0]}
  /\ fired σ ⊆ fired r.1
  /\ 1 ∈ fired r.1.
Proof.
  intros σ0 σ r.
  split_and!; [exact suite_keeps_fired|vm_compute; reflexivity|vm_compute; reflexivity
              |vm_compute; reflexivity| |vm_compute; reflexivity].
  destruct (emission_keeps_fired (keeps := suite_keeps_fired)
              "foo" [VString "bar"] 1 σ) as (_ & Hserial & _).
  exact Hserial.
Defined.

(** X12: the closure of [once("foo", (action) => action)], called
    twice. *)
Lemma once_closure_runs_once_on_suite :
  let once_f := OnceFn 0 "foo" (Fn 0) in
  let σ := (call once_f [VString "bar"] 0 once_foo).1 in
  KeepsFired
  /\ 0 ∈ fired σ
  /\ (call once_f [VString "baz"] 1 σ).2 = Normal (RValue VUndefined).
Proof.
  intros once_f σ.
  destruct (once_closure_runs_listener_once (keeps := suite_keeps_fired)
              0 "foo" (Fn 0) [VString "bar"] 0 once_foo) as [Hset Hlater].
  split_and!; [exact suite_keeps_fired|exact Hset|].
  unfold once_f. by rewrite (Hlater [VString "baz"] 1 σ).
Defined.

(** X15: three listeners and a gate of capacity 3: the gate is handed
    three thunks and starts the three listeners at once, in registration
    order. *)
Lemma emitParallel_gate_on_suite :
  let σ := returns (setConcurrency (VNumber 3) (on_all "foo" [0; 1; 5] emitter)) in
  let r := emitParallel "foo" [VString "bar"] 0 σ in
  Detached
  /\ limiter (this σ) = Some (mkGate 3 0)
  /\ limiter (this r.1) = Some (mkGate 3 3)
  /\ exists recs,
       calls r.1 = calls σ ++ recs
       /\ (fun i => (inv_listener i, inv_start i)) <$> recs
          = [(Fn 0, 0); (Fn 1, 0); (Fn 5, 0)].
Proof.
  intros σ r.
  assert (limiter (this σ) = Some (mkGate 3 0)) as Hg by (vm_compute; reflexivity).
  split_and!; [exact suite_detached|exact Hg| |];
    destruct (emitParallel_hands_every_listener_to_the_gate (detached := suite_detached)
                "foo" [VString "bar"] 0 _ σ Hg)
      as (Hlim & recs & Hcalls & _ & Hstarts & _).
  - unfold r. rewrite Hlim. vm_compute. reflexivity.
  - exists recs. split; [exact Hcalls|]. rewrite Hstarts. vm_compute. reflexivity.
Defined.

(** X16: the three listeners without a gate. *)
Lemma emitParallel_no_gate_on_suite :
  let σ := on_all "foo" [0; 1; 5] emitter in
  Detached
  /\ limiter (this σ) = None
  /\ exists recs,
       calls (emitParallel "foo" [VString "bar"] 0 σ).1 = calls σ ++ recs
       /\ inv_listener <$> recs = [Fn 0; Fn 1; Fn 5]
       /\ Forall (fun i => inv_start i = 0 /\ inv_args i = [VString "bar"]) recs.
Proof.
  intros σ.
  assert (limiter (this σ) = None) as Hg by (vm_compute; reflexivity).
  split_and!; [exact suite_detached|exact Hg|].
  destruct (emitParallel_without_gate_starts_all_at_once (detached := suite_detached)
              "foo" [VString "bar"] 0 σ Hg) as (_ & recs & Hcalls & _ & Hls & Hall & _).
  exists recs. split_and!; [exact Hcalls| |exact Hall].
  rewrite Hls. vm_compute. reflexivity.
Defined.

(** X19: the three [square] listeners of the suite, from the last to the
    first, on an instance with a gate of capacity 1: three invocations,
    each begun when the promise of the one before it had resolved. *)
Lemma emitReduce_one_at_a_time_on_suite :
  let σ := returns (setConcurrency (VNumber 1) (on_all "foo" [10; 11; 12] emitter)) in
  let r := emitReduceRight "foo" [VArray []; VNumber 2] 0 σ in
  CausalGate
  /\ is_Some (limiter (this σ))
  /\ inv_listener <$> calls r.1 = [Fn 12; Fn 11; Fn 10]
  /\ exists recs,
       calls r.1 = calls σ ++ recs
       /\ (forall i, recs !! 0 = Some i -> 0 <= inv_start i)
       /\ (forall k i j, recs !! k = Some i -> recs !! (S k) = Some j ->
             exists t v,
               inv_promise i = Settles t (Fulfilled v) /\ t <= inv_start j).
Proof.
  intros σ r.
  split_and!; [exact suite_causal|vm_compute; by eexists|vm_compute; reflexivity|].
  destruct (emitReduce_one_at_a_time (causal := suite_causal)
              "foo" [VArray []; VNumber 2] 0 σ)
    as (_ & recs & Hcalls & _ & Hfirst & Hnext).
  exists recs. by split_and!.
Defined.


(** X13: the closure of [once("foo", (action) => action)], called for the
    first time. *)
Lemma once_closure_first_call_on_suite :
  let once_f := OnceFn 0 "foo" (Fn 0) in
  let r := call once_f [VString "bar"] 0 once_foo in
  Detached
  /\ (0 ∉ fired once_foo)
  /\ onceMap (this once_foo) !! once_f = None
  /\ r.2 = Normal (RValue (VString "bar"))
  /\ listeners "foo" (this r.1) = []
  /\ onceMap (this r.1) !! Fn 0 = Some once_f.
Proof.
  intros once_f r.
  assert (0 ∉ fired once_foo) as Hfresh by (vm_compute; set_solver).
  assert (onceMap (this once_foo) !! once_f = None) as Hnone
    by (vm_compute; reflexivity).
  split_and!; [exact suite_detached|exact Hfresh|exact Hnone| | |].
  all: destruct (once_closure_first_call (detached := suite_detached)
                   0 "foo" 0 [VString "bar"] 0 once_foo Hfresh Hnone)
         as (Hres & Hls & _ & Hmap & _).
  - unfold r, once_f. rewrite Hres. reflexivity.
  - unfold r, once_f. rewrite Hls. vm_compute. reflexivity.
  - unfold r, once_f. rewrite Hmap. vm_compute. reflexivity.
Defined.

(** X21: an instance of a class that extends [AsyncEventEmitter]. *)
Lemma isEventEmitter_of_subclass :
  let obj := Some (ClassPrototype 0 AsyncEventEmitterPrototype) in
  isAsyncEventEmitter obj = true /\ isEventEmitter obj = true.
Proof.
  intros obj. split; [reflexivity|].
  destruct (isAsyncEventEmitter_isEventEmitter obj eq_refl) as [Hee _].
  exact Hee.
Defined.
